(** * The similarity-matching engine of the dropshipping detector

    A shallow embedding of [clip_comparison.py] (similarity scorer, pairwise
    comparator, nearest-neighbour search) and of [compare_images.py] (batch
    orchestrator), with the properties the specification states about them.

    Numbers.  Floats are modelled by the rationals they denote ([Q]).
    Python floats (doubles) are taken exact.  The embeddings are float32
    arrays, so a similarity is an [np.float32]: the arithmetic that leads to
    it is taken exact and the result is rounded once, to the nearest
    float32 ([np_float32]), and a comparison of an [np.float32] with a
    Python float is made in single precision, as NumPy 2 makes it
    ([float32_ge]).  NaN is outside the model.  Equality of computed scalars
    is stated with [==] ([Qeq]).  Counters are [nat]; the requested [top_k],
    which a caller may pass zero or negative, is a [Z]. *)

From Stdlib Require Import QArith Qround ZArith List String Ascii Bool Lia Lqa.
From Stdlib Require Import Sorting.Sorted Sorting.Permutation.
Import ListNotations.

Local Open Scope Q_scope.

(* ================================================================== *)
(** * Python values: exceptions, floats, strings, paths, lists *)

(** The exceptions the modelled code can see. *)
Inductive Exn : Type :=
| OSError | ValueError | AssertionError | KeyError | IndexError.

(** What a call gives back: a value, or a raised exception. *)
Inductive Outcome (A : Type) : Type :=
| Return (a : A)
| Raise (e : Exn).
Arguments Return {A} a.
Arguments Raise {A} e.

Definition obind {A B} (m : Outcome A) (k : A -> Outcome B) : Outcome B :=
  match m with
  | Return a => k a
  | Raise e => Raise e
  end.

Notation "x <- m ;; k" := (obind m (fun x => k))
  (at level 61, m at next level, right associativity).

(** [a < b] on floats. *)
Definition Qltb (a b : Q) : bool := negb (Qle_bool b a).

(** [min(a, b)]: the first argument is kept unless the second is strictly
    smaller. *)
Definition py_min (a b : Q) : Q := if Qltb b a then b else a.

(** [max(a, b)]: the first argument is kept unless the second is strictly
    larger. *)
Definition py_max (a b : Q) : Q := if Qltb a b then b else a.

(** [int / int] and [int] to [float]. *)
Definition Qnat (n : nat) : Q := inject_Z (Z.of_nat n).

(** Rounding to the nearest integer, a tie going to the even one. *)
Definition round_half_even (x : Q) : Z :=
  let f := Qfloor x in
  match Qcompare (x - inject_Z f) (1 # 2) with
  | Lt => f
  | Gt => (f + 1)%Z
  | Eq => if Z.even f then f else (f + 1)%Z
  end.

(** Rounding to the nearest multiple of [2 ^ j]. *)
Definition round_to_grid (j : Z) (X : Q) : Z :=
  (round_half_even (X / inject_Z (2 ^ j)) * 2 ^ j)%Z.

(** A magnitude counted in units of [2 ^ -149], the smallest positive
    float32, rounded to a significand of 24 bits: below [2 ^ 24] units
    (the subnormals and the first binade) every unit is a float32, above it
    the spacing doubles with each binade. *)
Definition float32_units (X : Q) : Z :=
  round_to_grid (Z.max 0 (Z.log2 (Qfloor X) - 23)) X.

(** [2 ^ 128] in units: what a magnitude beyond the largest float32 is
    rounded to ([inf]). *)
Definition float32_inf : Z := (2 ^ 277)%Z.

(** [np.float32(x)]: the float32 nearest to [x], ties to even. *)
Definition np_float32 (x : Q) : Q :=
  let unit := inject_Z (2 ^ 149) in
  let m := if Qle_bool 0 x
           then Z.min (float32_units (x * unit)) float32_inf
           else (- Z.min (float32_units (- x * unit)) float32_inf)%Z in
  inject_Z m / unit.

(** [a >= b] for an [np.float32] [a] and a Python float [b]: the Python
    float is a weak scalar, both operands are taken to float32 and compared
    there. *)
Definition float32_ge (a b : Q) : bool :=
  Qle_bool (np_float32 b) (np_float32 a).

(** [str.lower], on ASCII text. *)
Definition ascii_lower (c : ascii) : ascii :=
  let n := nat_of_ascii c in
  if ((65 <=? n) && (n <=? 90))%nat then ascii_of_nat (n + 32) else c.

Fixpoint str_lower (s : string) : string :=
  match s with
  | EmptyString => EmptyString
  | String c s' => String (ascii_lower c) (str_lower s')
  end.

(** [s.endswith(suffix)] and [s.endswith((suffix1, suffix2, ...))]. *)
Definition str_endswith (s suffix : string) : bool :=
  let n := String.length s in
  let m := String.length suffix in
  ((m <=? n)%nat && String.eqb (substring (n - m) m s) suffix).

Definition str_endswith_any (s : string) (suffixes : list string) : bool :=
  existsb (str_endswith s) suffixes.

(** The text after the last occurrence of [sep], if [sep] occurs. *)
Fixpoint after_last (sep : ascii) (s : string) : option string :=
  match s with
  | EmptyString => None
  | String c s' =>
      match after_last sep s' with
      | Some r => Some r
      | None => if Ascii.eqb c sep then Some s' else None
      end
  end.

(** [os.path.join(a, b)] (POSIX). *)
Definition os_path_join (a b : string) : string :=
  if String.prefix "/" b then b
  else if String.eqb a "" || str_endswith a "/" then (a ++ b)%string
  else (a ++ "/" ++ b)%string.

(** [Path(p).name]: the final path component. *)
Definition path_name (p : string) : string :=
  match after_last "/" p with
  | Some r => r
  | None => p
  end.

(** [Path(p).suffix]: the final component from its last dot on, when that dot
    is neither its first nor its last character. *)
Definition path_suffix (p : string) : string :=
  let name := path_name p in
  match after_last "." name with
  | Some ext =>
      if ((String.length ext =? 0) || (String.length ext + 1 =? String.length name))%nat
      then EmptyString
      else String "." ext
  | None => EmptyString
  end.

(** [l[i]] for a Python [int] index: negative indices count from the end. *)
Definition py_index {A} (l : list A) (i : Z) : Outcome A :=
  let n := Z.of_nat (List.length l) in
  let j := if (i <? 0)%Z then (n + i)%Z else i in
  if ((j <? 0) || (n <=? j))%Z then Raise IndexError
  else match nth_error l (Z.to_nat j) with
       | Some x => Return x
       | None => Raise IndexError
       end.

(** A stable sort by insertion.  [strictly y x] says that [y] must come
    before [x]; an element is placed before the first one that need not
    precede it, so elements that compare equal keep their order.  A stable
    sort is determined by its order, so this is the result of [list.sort]
    whatever algorithm computes it. *)
Section StableSort.
Context {A : Type} (strictly : A -> A -> bool).

Fixpoint insert_stable (x : A) (l : list A) : list A :=
  match l with
  | [] => [x]
  | y :: l' => if strictly y x then y :: insert_stable x l' else x :: l
  end.

Fixpoint sort_stable (l : list A) : list A :=
  match l with
  | [] => []
  | x :: l' => insert_stable x (sort_stable l')
  end.
End StableSort.

(* ================================================================== *)
(** * The world outside: file system and embedding provider *)

(** An embedding: the flattened output vector of the image encoder. *)
Definition Embedding : Type := list Q.

(** What the code reads from its environment.  [os_listdir] is [None] where
    [os.listdir] / [Path.iterdir] raise [OSError]; [encode_image] is the whole
    body of [get_embedding]'s [try] (open, convert, preprocess, encode), [None]
    when any step of it raises.  The process-wide CLIP model is taken to
    load: [load_clip_model] returns the same read-only model on every call. *)
Record Env : Type := {
  os_path_exists : string -> bool;
  os_listdir : string -> option (list string);
  is_file : string -> bool;
  encode_image : string -> option Embedding
}.

(** [get_embedding]: the embedding, or [None] after the [except] clause. *)
Definition get_embedding (env : Env) (image_path : string) : option Embedding :=
  encode_image env image_path.

(** The provider's invariant: one model, one output width. *)
Definition fixed_width (env : Env) (dim : nat) : Prop :=
  forall image_path e,
    get_embedding env image_path = Some e -> List.length e = dim.

(* ================================================================== *)
(** * Similarity scorer ([clip_comparison.py]) *)

(** [np.dot] of two one-dimensional float32 arrays: an [np.float32]; shapes
    that differ raise. *)
Definition np_dot (a b : Embedding) : Outcome Q :=
  if (List.length a =? List.length b)%nat
  then Return (np_float32
                 (fold_right Qplus 0 (map (fun p => fst p * snd p) (combine a b))))
  else Raise ValueError.

(** [array / scalar]. *)
Definition np_div (a : Embedding) (c : Q) : Embedding := map (fun x => x / c) a.

(** [np.mean] of a list of floats. *)
Definition np_mean (l : list Q) : Q :=
  fold_right Qplus 0 l / Qnat (List.length l).

Section Scorer.
(** [np.linalg.norm]: a square root, which the rationals do not have; the
    development is parametric in it.  A zero norm (NaN in numpy) is
    outside the model. *)
Variable linalg_norm : Embedding -> Q.

(** [cosine_similarity]: both vectors scaled to unit length, then their
    dot product. *)
Definition cosine_similarity (a b : Embedding) : Outcome Q :=
  let a_norm := np_div a (linalg_norm a) in
  let b_norm := np_div b (linalg_norm b) in
  np_dot a_norm b_norm.
End Scorer.

(** [confidence_score]: [float(max(0.0, min(1.0, similarity)) * 100)]. *)
Definition confidence_score (similarity : Q) : Q :=
  py_max 0 (py_min 1 similarity) * 100.

Definition EXTREMELY_LIKELY : string := "Extremely likely the same image".
Definition VERY_LIKELY : string := "Very likely the same image".
Definition POSSIBLY : string := "Possibly the same image".
Definition UNLIKELY : string := "Unlikely to be the same image".

(** [confidence_label]: an [if]/[elif] chain of strict comparisons. *)
Definition confidence_label (score : Q) : string :=
  if Qltb 95 score then EXTREMELY_LIKELY
  else if Qltb 90 score then VERY_LIKELY
  else if Qltb 85 score then POSSIBLY
  else UNLIKELY.

(** The specification's [clamp(s, lo, hi)], written from its words: [lo] below
    the interval, [hi] above it, [s] itself inside. *)
Definition clamp_spec (s lo hi : Q) : Q :=
  if Qltb s lo then lo else if Qltb hi s then hi else s.

(* ================================================================== *)
(** * Pairwise comparator ([compare_images_clip]) *)

(** One entry of [match_details]. *)
Record MatchDetail : Type := {
  path : string;
  similarity : Q;
  confidence : Q;
  label : string
}.

(** The dictionary [compare_images_clip] returns.  [avg_similarity] is an
    [option] because the key is not in every dictionary the function
    builds. *)
Record ComparisonResult : Type := {
  exact_matches : nat;
  total_compared : nat;
  is_dropshipping : bool;
  match_ratio : Q;
  similarities : list Q;
  match_details : list MatchDetail;
  avg_similarity : option Q
}.

(** The dictionary of the two early returns (lines 99-106 and 114-121). *)
Definition early_result : ComparisonResult := {|
  exact_matches := 0;
  total_compared := 0;
  is_dropshipping := false;
  match_ratio := 0;
  similarities := [];
  match_details := [];
  avg_similarity := None
|}.

(** The four accumulators of the comparison loop. *)
Record Acc : Type := {
  acc_exact_matches : nat;
  acc_total_compared : nat;
  acc_similarities : list Q;
  acc_match_details : list MatchDetail
}.

Definition acc_init : Acc := {|
  acc_exact_matches := 0;
  acc_total_compared := 0;
  acc_similarities := [];
  acc_match_details := []
|}.

Section Comparator.
Variable linalg_norm : Embedding -> Q.
Variable env : Env.

(** One turn of [for result_path in search_result_paths].  A missing file
    and a missing embedding [continue]; an exception of the similarity
    computation is caught by the loop's [except] before anything was
    appended.  [sim] is the [np.float32] that [np.dot] returned, so the test
    [sim >= similarity_threshold] is made in single precision
    ([float32_ge]); what is stored, [sim] and [float(sim)], is its value. *)
Definition compare_step (original_embedding : Embedding) (similarity_threshold : Q)
    (acc : Acc) (result_path : string) : Acc :=
  if negb (os_path_exists env result_path) then acc
  else
    match get_embedding env result_path with
    | None => acc
    | Some result_embedding =>
        match cosine_similarity linalg_norm original_embedding result_embedding with
        | Raise _ => acc
        | Return sim =>
            let score := confidence_score sim in
            let label := confidence_label score in
            {| acc_exact_matches :=
                 if float32_ge sim similarity_threshold
                 then S (acc_exact_matches acc) else acc_exact_matches acc;
               acc_total_compared := S (acc_total_compared acc);
               acc_similarities := acc_similarities acc ++ [sim];
               acc_match_details :=
                 acc_match_details acc ++
                 [{| path := result_path; similarity := sim;
                     confidence := score; label := label |}] |}
        end
    end.

Definition compare_images_clip (original_image_path : string)
    (search_result_paths : list string) (similarity_threshold : Q)
    : ComparisonResult :=
  if negb (os_path_exists env original_image_path) then early_result
  else
    match get_embedding env original_image_path with
    | None => early_result
    | Some original_embedding =>
        let acc :=
          fold_left (compare_step original_embedding similarity_threshold)
                    search_result_paths acc_init in
        let exact_matches := acc_exact_matches acc in
        let total_compared := acc_total_compared acc in
        let similarities := acc_similarities acc in
        {| exact_matches := exact_matches;
           total_compared := total_compared;
           is_dropshipping := (0 <? exact_matches)%nat;
           match_ratio :=
             if (0 <? total_compared)%nat
             then Qnat exact_matches / Qnat total_compared else 0;
           similarities := similarities;
           match_details := acc_match_details acc;
           avg_similarity :=
             Some (match similarities with
                   | [] => 0
                   | _ :: _ => np_mean similarities
                   end) |}
    end.
End Comparator.

(** Three readings of the loop, used to state what it accumulates.
    [candidate_similarity] is the similarity a candidate enters the
    comparison with, [None] for a candidate one of the loop's three skips
    leaves out; [compared] lists the candidates that are not skipped, in
    order; [count_matches] counts the similarities that the loop's
    comparison finds at or above a threshold. *)
Definition candidate_similarity (linalg_norm : Embedding -> Q) (env : Env)
    (original_embedding : Embedding) (result_path : string) : option Q :=
  if os_path_exists env result_path then
    match get_embedding env result_path with
    | Some result_embedding =>
        match cosine_similarity linalg_norm original_embedding result_embedding with
        | Return sim => Some sim
        | Raise _ => None
        end
    | None => None
    end
  else None.

Definition compared (linalg_norm : Embedding -> Q) (env : Env)
    (original_embedding : Embedding) (search_result_paths : list string)
    : list (string * Q) :=
  flat_map (fun p => match candidate_similarity linalg_norm env original_embedding p with
                     | Some sim => [(p, sim)]
                     | None => []
                     end)
           search_result_paths.

Definition count_matches (similarity_threshold : Q) (sims : list Q) : nat :=
  List.length (filter (fun sim => float32_ge sim similarity_threshold) sims).

Definition detail_of (c : string * Q) : MatchDetail :=
  {| path := fst c;
     similarity := snd c;
     confidence := confidence_score (snd c);
     label := confidence_label (confidence_score (snd c)) |}.

(* ================================================================== *)
(** * The index library *)

(** Modelled from the spec: the nearest-neighbour index ([faiss]) is an
    external collaborator and not part of the sources.  The spec gives it as
    a flat, exhaustive and exact index keyed by squared Euclidean distance,
    with [add(vectors)] and [search(query, k) -> (distances, ids)], the
    neighbours ranked ascending by distance.  The library's Python wrapper
    asserts that the vectors have the index's width and that [k] is
    positive, and fills the places beyond the stored vectors with the id -1
    and the largest float.  Ties are broken by id. *)
Module Faiss.

Record IndexFlatL2 : Type := {
  d : nat;
  xb : list Embedding
}.

Definition new (dimension : nat) : IndexFlatL2 :=
  {| d := dimension; xb := [] |}.

Definition add (index : IndexFlatL2) (x : list Embedding) : Outcome IndexFlatL2 :=
  if forallb (fun row => (List.length row =? d index)%nat) x
  then Return {| d := d index; xb := xb index ++ x |}
  else Raise AssertionError.

(** Squared Euclidean distance. *)
Definition fvec_L2sqr (x y : Embedding) : Q :=
  fold_right Qplus 0
    (map (fun p => (fst p - snd p) * (fst p - snd p)) (combine x y)).

Definition FLT_MAX : Q := 340282346638528859811704183484516925440 # 1.

(** The stored vectors with their ids and their distance to the query,
    nearest first. *)
Definition ranked (index : IndexFlatL2) (query : Embedding) : list (nat * Q) :=
  sort_stable (fun y x => Qltb (snd y) (snd x))
    (combine (seq 0 (List.length (xb index)))
             (map (fvec_L2sqr query) (xb index))).

(** [index.search(query, k)] for one query row: [(distances, ids)]. *)
Definition search (index : IndexFlatL2) (query : Embedding) (k : Z)
    : Outcome (list Q * list Z) :=
  if negb (List.length query =? d index)%nat then Raise AssertionError
  else if negb (0 <? k)%Z then Raise AssertionError
  else
    let found := firstn (Z.to_nat k) (ranked index query) in
    let missing := (Z.to_nat k - List.length found)%nat in
    Return (map snd found ++ repeat FLT_MAX missing,
            map (fun f => Z.of_nat (fst f)) found ++ repeat (-1)%Z missing).

End Faiss.

(* ================================================================== *)
(** * Nearest-neighbour search ([reverse_image_search_clip]) *)

(** The calls made to the index library, in order. *)
Inductive IndexCall : Type :=
| NewIndex (dimension : nat)
| IndexAdd (n : nat)
| IndexSearch (k : Z).

(** A computation that logs its calls to the index library and may raise. *)
Definition Logged (A : Type) : Type := (list IndexCall * Outcome A)%type.

Definition lret {A} (a : A) : Logged A := ([], Return a).

Definition lbind {A B} (m : Logged A) (k : A -> Logged B) : Logged B :=
  match m with
  | (log, Return a) => let (log', r) := k a in (log ++ log', r)
  | (log, Raise e) => (log, Raise e)
  end.

Definition call {A} (c : IndexCall) (r : Outcome A) : Logged A := ([c], r).

Definition lift {A} (r : Outcome A) : Logged A := ([], r).

Notation "x <-- m ;; k" := (lbind m (fun x => k))
  (at level 61, m at next level, right associativity).

(** One entry of the list [reverse_image_search_clip] returns. *)
Record SearchHit : Type := {
  hit_rank : nat;
  hit_path : string;
  hit_similarity : Q;
  hit_confidence : Q;
  hit_label : string;
  hit_distance : Q
}.

(** [np.vstack] of a list of one-dimensional arrays. *)
Definition np_vstack (rows : list Embedding) : Outcome (list Embedding) :=
  match rows with
  | [] => Raise ValueError
  | r :: rest =>
      if forallb (fun r' => (List.length r' =? List.length r)%nat) rest
      then Return rows else Raise ValueError
  end.

(** [embeddings.shape[1]] of a stacked, non-empty matrix. *)
Definition shape1 (m : list Embedding) : nat :=
  match m with
  | [] => 0%nat
  | r :: _ => List.length r
  end.

(** [build_faiss_index]. *)
Definition build_faiss_index (embeddings : list Embedding) : Logged Faiss.IndexFlatL2 :=
  let dimension := shape1 embeddings in
  index <-- call (NewIndex dimension) (Return (Faiss.new dimension)) ;;
  call (IndexAdd (List.length embeddings)) (Faiss.add index embeddings).

(** The file names the search reads: [.jpg], [.png], [.jpeg] in any case. *)
Definition is_image_name (filename : string) : bool :=
  str_endswith_any (str_lower filename) [".jpg"; ".png"; ".jpeg"]%string.

Section Search.
Variable linalg_norm : Embedding -> Q.
Variable env : Env.

(** One turn of [for filename in os.listdir(image_folder)], on the pair
    [(embeddings, paths)]. *)
Definition gather_step (image_folder : string)
    (acc : list Embedding * list string) (filename : string)
    : list Embedding * list string :=
  if is_image_name filename then
    let full_path := os_path_join image_folder filename in
    match get_embedding env full_path with
    | Some emb => (fst acc ++ [emb], snd acc ++ [full_path])
    | None => acc
    end
  else acc.

Definition gather (image_folder : string) (filenames : list string)
    : list Embedding * list string :=
  fold_left (gather_step image_folder) filenames ([], []).

(** [for rank, idx in enumerate(indices[0])], from position [rank] on. *)
Fixpoint hits_from (paths : list string) (embeddings : list Embedding)
    (query_embedding : Embedding) (distances : list Q)
    (rank : nat) (indices : list Z) : Outcome (list SearchHit) :=
  match indices with
  | [] => Return []
  | idx :: indices' =>
      candidate_path <- py_index paths idx ;;
      candidate_vec <- py_index embeddings idx ;;
      sim <- cosine_similarity linalg_norm query_embedding candidate_vec ;;
      let score := confidence_score sim in
      let label := confidence_label score in
      distance <- py_index distances (Z.of_nat rank) ;;
      rest <- hits_from paths embeddings query_embedding distances (S rank) indices' ;;
      Return ({| hit_rank := rank + 1;
                 hit_path := candidate_path;
                 hit_similarity := sim;
                 hit_confidence := score;
                 hit_label := label;
                 hit_distance := distance |} :: rest)
  end.

Definition reverse_image_search_clip (image_folder query_image : string)
    (top_k : Z) : Logged (list SearchHit) :=
  match os_listdir env image_folder with
  | None => lift (Raise OSError)
  | Some filenames =>
      let (embeddings, paths) := gather image_folder filenames in
      match embeddings with
      | [] => lret []
      | _ :: _ =>
          embeddings <-- lift (np_vstack embeddings) ;;
          index <-- build_faiss_index embeddings ;;
          match get_embedding env query_image with
          | None => lret []
          | Some query_embedding =>
              let k := Z.min top_k (Z.of_nat (List.length paths)) in
              found <-- call (IndexSearch k) (Faiss.search index query_embedding k) ;;
              lift (hits_from paths embeddings query_embedding (fst found) 0 (snd found))
          end
      end
  end.
End Search.

(** What entry [h] of the result says about the corpus row [i] it was built
    from: its path and its distance, the cosine similarity recomputed from
    the two vectors, and the score and label of that similarity. *)
Definition hit_of_row (linalg_norm : Embedding -> Q) (paths : list string)
    (embeddings : list Embedding) (query_embedding : Embedding)
    (i : nat) (h : SearchHit) : Prop :=
  exists v,
    nth_error embeddings i = Some v /\
    nth_error paths i = Some (hit_path h) /\
    hit_distance h = Faiss.fvec_L2sqr query_embedding v /\
    cosine_similarity linalg_norm query_embedding v = Return (hit_similarity h) /\
    hit_confidence h = confidence_score (hit_similarity h) /\
    hit_label h = confidence_label (hit_confidence h).

(* ================================================================== *)
(** * Batch orchestrator ([compare_images.py]) *)

(** One value of the report: the statistics of a reference image and its
    presented matches. *)
Record ReportEntry : Type := {
  rep_original_path : string;
  rep_total_compared : nat;
  rep_exact_matches : nat;
  rep_match_ratio : Q;
  rep_avg_similarity : Q;
  rep_top_matches : list MatchDetail
}.

Definition image_extensions : list string :=
  [".jpg"; ".jpeg"; ".png"; ".JPG"; ".JPEG"; ".PNG"]%string.

(** [results[key] = value] on an insertion-ordered dictionary. *)
Fixpoint dict_set {V} (dict : list (string * V)) (key : string) (value : V)
    : list (string * V) :=
  match dict with
  | [] => [(key, value)]
  | (k, v) :: rest =>
      if String.eqb k key then (k, value) :: rest
      else (k, v) :: dict_set rest key value
  end.

(** [match_details.sort(key=lambda x: x['similarity'], reverse=True)]. *)
Definition sort_by_similarity_desc (l : list MatchDetail) : list MatchDetail :=
  sort_stable (fun y x => Qltb (similarity x) (similarity y)) l.

Section Orchestrator.
Variable linalg_norm : Embedding -> Q.
Variable env : Env.

(** [[f for f in folder.iterdir() if f.is_file() and
     f.suffix.lower() in image_extensions]]; folder strings are taken in
    the normal form [Path] prints. *)
Definition image_files (folder : string) : Outcome (list string) :=
  match os_listdir env folder with
  | None => Raise OSError
  | Some names =>
      Return (filter
                (fun f => is_file env f &&
                          existsb (String.eqb (str_lower (path_suffix f)))
                                  image_extensions)
                (map (os_path_join folder) names))
  end.

(** The body of [for orig_img in original_images] up to the value stored
    under [orig_name] (lines 76-93).  The filter reads ['similarity'], which
    [compare_images_clip] stored as [float(sim)], a Python float, and
    compares it with the threshold as Python compares two floats: exactly,
    where the comparator's loop compared in single precision.  Reading
    ['avg_similarity'] from a dictionary without that key raises
    [KeyError]. *)
Definition report_entry (orig_img : string) (downloaded_paths : list string)
    (similarity_threshold : Q) : Outcome ReportEntry :=
  let comparison :=
    compare_images_clip linalg_norm env orig_img downloaded_paths
                        similarity_threshold in
  let match_details := sort_by_similarity_desc (match_details comparison) in
  let top_matches :=
    firstn 10 (filter (fun m => Qle_bool similarity_threshold (similarity m))
                      match_details) in
  match avg_similarity comparison with
  | None => Raise KeyError
  | Some avg =>
      Return {| rep_original_path := orig_img;
                rep_total_compared := total_compared comparison;
                rep_exact_matches := exact_matches comparison;
                rep_match_ratio := match_ratio comparison;
                rep_avg_similarity := avg;
                rep_top_matches := top_matches |}
  end.

Fixpoint report_loop (original_images downloaded_paths : list string)
    (similarity_threshold : Q) (results : list (string * ReportEntry))
    : Outcome (list (string * ReportEntry)) :=
  match original_images with
  | [] => Return results
  | orig_img :: rest =>
      entry <- report_entry orig_img downloaded_paths similarity_threshold ;;
      report_loop rest downloaded_paths similarity_threshold
                  (dict_set results (path_name orig_img) entry)
  end.

Definition compare_original_with_downloaded (original_folder downloaded_folder : string)
    (similarity_threshold : Q) : Outcome (list (string * ReportEntry)) :=
  if negb (os_path_exists env original_folder) then Return []
  else if negb (os_path_exists env downloaded_folder) then Return []
  else
    original_images <- image_files original_folder ;;
    downloaded_images <- image_files downloaded_folder ;;
    match original_images, downloaded_images with
    | [], _ => Return []
    | _, [] => Return []
    | _, _ => report_loop original_images downloaded_images similarity_threshold []
    end.
End Orchestrator.

(* ================================================================== *)
(** * Further readings of the code, used to state its properties *)

(** The candidates that exist and decode. *)
Definition usable (env : Env) (p : string) : bool :=
  os_path_exists env p &&
  match get_embedding env p with Some _ => true | None => false end.

(** The value [np.dot] returns for arrays of one shape. *)
Definition dot (a b : Embedding) : Q :=
  fold_right Qplus 0 (map (fun p => fst p * snd p) (combine a b)).

(* ================================================================== *)
(** * Summary of a batch report ([print_summary]) *)

(** The numbers [print_summary] computes and prints, before formatting. *)
Module Summary.

Record t : Type := {
  total_originals : nat;
  total_with_matches : nat;
  total_matches : nat;
  avg_similarity : Q;
  percent_with_matches : Q;
  lines : list (bool * string * nat * Q)
}.

End Summary.

(** [sum(...)] over floats and over ints. *)
Definition sum_floats (l : list Q) : Q := fold_left Qplus l 0.
Definition sum_ints (l : list nat) : nat := fold_left Nat.add l 0%nat.

(** [print_summary]: [None] stands for the early return on an empty report
    (one message, no statistics).  Each detail line carries whether the
    status is "Potriviri", the name, the match count and the mean. *)
Definition print_summary (results : list (string * ReportEntry)) : option Summary.t :=
  match results with
  | [] => None
  | _ :: _ =>
      let values := map snd results in
      let total_originals := List.length results in
      let total_with_matches :=
        sum_ints (map (fun _ => 1%nat)
                      (filter (fun r => (0 <? rep_exact_matches r)%nat) values)) in
      let total_matches := sum_ints (map rep_exact_matches values) in
      let avg_similarity :=
        if (0 <? total_originals)%nat
        then sum_floats (map rep_avg_similarity values) / Qnat total_originals
        else 0 in
      Some {| Summary.total_originals := total_originals;
              Summary.total_with_matches := total_with_matches;
              Summary.total_matches := total_matches;
              Summary.avg_similarity := avg_similarity;
              Summary.percent_with_matches :=
                Qnat total_with_matches / Qnat total_originals * 100;
              Summary.lines :=
                map (fun kv =>
                       let matches := rep_exact_matches (snd kv) in
                       let avg_sim := rep_avg_similarity (snd kv) in
                       ((0 <? matches)%nat, fst kv, matches, avg_sim))
                    results |}
  end.

(* ================================================================== *)
(** * The process-wide model ([load_clip_model], [get_embedding]) *)

(** The three module globals of [clip_comparison.py] as explicit state.
    [_clip_model] and [_clip_preprocess] are assigned by one tuple
    assignment and so are kept as one optional pair. *)
Module Clip.
Section Provider.
Variables Model Preprocess : Type.

(** [torch.cuda.is_available()], [clip.load(name, device=...)], and the body
    of [get_embedding]'s [try] for a given model, preprocessing, device and
    path. *)
Variable cuda_is_available : bool.
Variable clip_load : string -> string -> Outcome (Model * Preprocess).
Variable encode : Model -> Preprocess -> option string -> string -> Outcome Embedding.

Record Globals : Type := {
  _clip_model : option (Model * Preprocess);
  _clip_device : option string
}.

Definition unloaded : Globals := {| _clip_model := None; _clip_device := None |}.

(** A call gives the new globals, the devices [clip.load] was called with
    during the call, and the outcome. *)
Definition Call (A : Type) : Type := (Globals * list string * Outcome A)%type.

Definition load_clip_model (g : Globals)
    : Call (Model * Preprocess * option string) :=
  match _clip_model g with
  | None =>
      let device := if cuda_is_available then "cuda"%string else "cpu"%string in
      match clip_load "ViT-B/32" device with
      | Return (model, preprocess) =>
          ({| _clip_model := Some (model, preprocess); _clip_device := Some device |},
           [device], Return (model, preprocess, Some device))
      | Raise e =>
          ({| _clip_model := None; _clip_device := Some device |}, [device], Raise e)
      end
  | Some (model, preprocess) =>
      (g, [], Return (model, preprocess, _clip_device g))
  end.

(** [get_embedding(image_path, model, preprocess, device)]: with an argument
    left [None] all three are taken from [load_clip_model]; an exception of
    the [try] body gives [None]. *)
Definition get_embedding (g : Globals) (image_path : string)
    (model : option Model) (preprocess : option Preprocess) (device : option string)
    : Call (option Embedding) :=
  let run (g' : Globals) (log : list string) m p d :=
    (g', log, Return (match encode m p d image_path with
                      | Return embedding => Some embedding
                      | Raise _ => None
                      end)) in
  match model, preprocess, device with
  | Some m, Some p, Some d => run g [] m p (Some d)
  | _, _, _ =>
      match load_clip_model g with
      | (g', log, Return (m, p, d)) => run g' log m p d
      | (g', log, Raise e) => (g', log, Raise e)
      end
  end.

(** [n] calls of [load_clip_model] in a row: the final globals and the
    devices loaded for, over all calls. *)
Fixpoint load_repeatedly (n : nat) (g : Globals) : Globals * list string :=
  match n with
  | O => (g, [])
  | S n' =>
      let '(g', log, _) := load_clip_model g in
      let (g'', log') := load_repeatedly n' g' in
      (g'', log ++ log')
  end.

End Provider.
End Clip.


Definition has_image_suffix (p : string) : bool :=
  existsb (String.eqb (str_lower (path_suffix p))) image_extensions.



(* ================================================================== *)
(** * Sample data

    A small world on which the model runs: two-dimensional embeddings whose
    norms are whole numbers, and a norm that is exact on those. *)

(** A stand-in for [np.linalg.norm], exact when the sum of squares is the
    square of a rational. *)
Definition sample_norm (v : Embedding) : Q :=
  let s := Qred (fold_right Qplus 0 (map (fun x => x * x) v)) in
  Z.sqrt (Qnum s) # Pos.sqrt (Qden s).

Definition sample_images : list (string * Embedding) :=
  [ ("data/original/ref.jpg", [1; 0]);
    ("data/refs/ref.jpg", [1; 0]);
    ("data/refs/other.JPG", [0; 1]);
    ("data/downloaded/same.jpg", [2; 0]);
    ("data/downloaded/close.PNG", [4; 3]);
    ("data/downloaded/edge.jpeg", [3; 4]);
    ("data/downloaded/far.jpg", [0; 5]) ]%string.

Definition sample_folders : list (string * list string) :=
  [ ("data/original", ["ref.jpg"; "broken.jpg"; "readme.txt"]);
    ("data/downloaded",
     ["same.jpg"; "close.PNG"; "edge.jpeg"; "far.jpg"; "corrupt.jpg"; "notes.txt"]);
    ("data/refs", ["ref.jpg"; "other.JPG"; "thumbs.db"]);
    ("data/empty", ["notes.txt"; "corrupt.png"]) ]%string.

Definition assoc {V} (key : string) (l : list (string * V)) : option V :=
  option_map snd (find (fun kv => String.eqb (fst kv) key) l).

(** Every listed file exists; [broken.jpg], [corrupt.jpg] and [corrupt.png]
    exist but do not decode. *)
Definition sample_env : Env := {|
  os_path_exists p :=
    existsb (fun folder => String.eqb (fst folder) p ||
                           existsb (fun n => String.eqb (os_path_join (fst folder) n) p)
                                   (snd folder))
            sample_folders;
  os_listdir folder := assoc folder sample_folders;
  is_file p :=
    existsb (fun folder => existsb (fun n => String.eqb (os_path_join (fst folder) n) p)
                                   (snd folder))
            sample_folders;
  encode_image p := assoc p sample_images
|}.

(** A world in which every path is an image with the same embedding: each
    candidate is a perfect match of each reference. *)
Definition uniform_env : Env := {|
  os_path_exists _ := true;
  os_listdir _ := None;
  is_file _ := true;
  encode_image _ := Some [1; 0]
|}.

Definition fifteen_names : list string :=
  [ "01.jpg"; "02.jpg"; "03.jpg"; "04.jpg"; "05.jpg";
    "06.jpg"; "07.jpg"; "08.jpg"; "09.jpg"; "10.jpg";
    "11.jpg"; "12.jpg"; "13.jpg"; "14.jpg"; "15.jpg" ]%string.

(** A world on the boundary: folder [o] holds one reference, which decodes
    to a unit vector, and folder [d] fifteen images, each decoding to a
    vector of norm 10 whose cosine with the reference is 0.9.  That number
    is not a float32 value; the similarity is the float32 next to it, just
    below. *)
Definition boundary_env : Env := {|
  os_path_exists _ := true;
  os_listdir folder :=
    if String.eqb folder "o" then Some ["ref.jpg"%string]
    else if String.eqb folder "d" then Some fifteen_names
    else None;
  is_file _ := true;
  encode_image p :=
    if String.eqb p "o/ref.jpg" then Some [1; 0; 0; 0] else Some [9; 3; 3; 1]
|}.

Definition fifteen_paths : list string :=
  [ "d/01.jpg"; "d/02.jpg"; "d/03.jpg"; "d/04.jpg"; "d/05.jpg";
    "d/06.jpg"; "d/07.jpg"; "d/08.jpg"; "d/09.jpg"; "d/10.jpg";
    "d/11.jpg"; "d/12.jpg"; "d/13.jpg"; "d/14.jpg"; "d/15.jpg" ]%string.

(* ================================================================== *)
(** * Facts about float comparisons *)

Lemma Qltb_lt (a b : Q) : Qltb a b = true <-> a < b.
Proof.
  unfold Qltb. rewrite negb_true_iff.
  split; intro H.
  - apply Qnot_le_lt. intro Hle. apply Qle_bool_iff in Hle. congruence.
  - destruct (Qle_bool b a) eqn:E; [|reflexivity].
    apply Qle_bool_iff in E. exfalso. exact (Qlt_not_le _ _ H E).
Qed.

Lemma Qltb_ge (a b : Q) : Qltb a b = false <-> b <= a.
Proof.
  unfold Qltb. rewrite negb_false_iff. apply Qle_bool_iff.
Qed.

Lemma Qle_bool_false (a b : Q) : Qle_bool a b = false <-> b < a.
Proof.
  rewrite <- Qltb_lt. unfold Qltb. apply iff_sym, negb_true_iff.
Qed.

(** Case analysis on a float comparison, with the order fact in context. *)
Ltac case_Qltb a b :=
  let E := fresh "E" in
  destruct (Qltb a b) eqn:E;
  [apply Qltb_lt in E | apply Qltb_ge in E].

Ltac case_Qle a b :=
  let E := fresh "E" in
  destruct (Qle_bool a b) eqn:E;
  [apply Qle_bool_iff in E | apply Qle_bool_false in E].

Lemma Qnat_nonneg (n : nat) : 0 <= Qnat n.
Proof.
  unfold Qnat. change 0 with (inject_Z 0). rewrite <- Zle_Qle. lia.
Qed.

Lemma Qnat_pos (n : nat) : (0 < n)%nat -> 0 < Qnat n.
Proof.
  intro H. unfold Qnat. change 0 with (inject_Z 0). rewrite <- Zlt_Qlt. lia.
Qed.

Lemma Qnat_le (m n : nat) : (m <= n)%nat -> Qnat m <= Qnat n.
Proof.
  intro H. unfold Qnat. rewrite <- Zle_Qle. lia.
Qed.

Lemma ratio_in_unit_interval (m n : nat) :
  (m <= n)%nat -> (0 < n)%nat -> 0 <= Qnat m / Qnat n <= 1.
Proof.
  intros Hmn Hn. pose proof (Qnat_pos n Hn) as Hpos. split.
  - apply Qle_shift_div_l; [assumption|].
    rewrite Qmult_0_l. apply Qnat_nonneg.
  - apply Qle_shift_div_r; [assumption|].
    rewrite Qmult_1_l. apply Qnat_le. assumption.
Qed.

(* ================================================================== *)
(** * Properties of single precision *)

(** Some float32 values: 0.9 is rounded down, 0.6 and 0.85 are rounded up,
    0, 1 and -1 are float32 values. *)
Example np_float32_values :
  np_float32 (9 # 10) == 15099494 # 16777216 /\
  np_float32 (6 # 10) == 10066330 # 16777216 /\
  np_float32 (85 # 100) == 14260634 # 16777216 /\
  np_float32 1 == 1 /\ np_float32 0 == 0 /\ np_float32 (-1) == -1.
Proof. vm_compute. repeat split. Qed.

Lemma round_half_even_bounds (x : Q) :
  (Qfloor x <= round_half_even x <= Qfloor x + 1)%Z.
Proof.
  unfold round_half_even.
  destruct (Qcompare (x - inject_Z (Qfloor x)) (1 # 2)); [destruct (Z.even (Qfloor x))| |]; lia.
Qed.

Lemma round_half_even_mono (x y : Q) :
  x <= y -> (round_half_even x <= round_half_even y)%Z.
Proof.
  intro Hxy. pose proof (Qfloor_resp_le x y Hxy) as Hf.
  destruct (Z.eq_dec (Qfloor x) (Qfloor y)) as [E|E].
  - unfold round_half_even. rewrite <- E.
    destruct (Qcompare_spec (x - inject_Z (Qfloor x)) (1 # 2)) as [Hx|Hx|Hx];
    destruct (Qcompare_spec (y - inject_Z (Qfloor x)) (1 # 2)) as [Hy|Hy|Hy];
      try (destruct (Z.even (Qfloor x))); try lia; exfalso; lra.
  - pose proof (round_half_even_bounds x). pose proof (round_half_even_bounds y). lia.
Qed.

Lemma round_half_even_Z (n : Z) : round_half_even (inject_Z n) = n.
Proof.
  unfold round_half_even. rewrite Qfloor_Z.
  destruct (Qcompare_spec (inject_Z n - inject_Z n) (1 # 2)) as [H|H|H];
    [exfalso; lra | reflexivity | exfalso; lra].
Qed.

Lemma round_half_even_eq (x : Q) (n : Z) : x == inject_Z n -> round_half_even x = n.
Proof.
  intro H.
  pose proof (round_half_even_mono x (inject_Z n)) as H1.
  pose proof (round_half_even_mono (inject_Z n) x) as H2.
  rewrite round_half_even_Z in H1, H2.
  assert (x <= inject_Z n) by lra. assert (inject_Z n <= x) by lra. 
  specialize (H1 H0). specialize (H2 H3). lia.
Qed.

Lemma pow2_pos (j : Z) : (0 <= j)%Z -> 0 < inject_Z (2 ^ j).
Proof.
  intro Hj. change 0 with (inject_Z 0). rewrite <- Zlt_Qlt.
  apply Z.pow_pos_nonneg; lia.
Qed.

Lemma round_to_grid_mono (j : Z) (X Y : Q) :
  (0 <= j)%Z -> X <= Y -> (round_to_grid j X <= round_to_grid j Y)%Z.
Proof.
  intros Hj HXY. unfold round_to_grid.
  apply Z.mul_le_mono_nonneg_r; [apply Z.pow_nonneg; lia|].
  apply round_half_even_mono.
  pose proof (pow2_pos j Hj) as Hp.
  apply Qmult_le_compat_r; [exact HXY|].
  apply Qlt_le_weak, Qinv_lt_0_compat, Hp.
Qed.

Lemma round_to_grid_fix (j k : Z) :
  (0 <= j)%Z -> round_to_grid j (inject_Z (k * 2 ^ j)) = (k * 2 ^ j)%Z.
Proof.
  intro Hj. unfold round_to_grid. f_equal.
  apply round_half_even_eq. rewrite inject_Z_mult.
  pose proof (pow2_pos j Hj) as Hp. field. lra.
Qed.

Lemma round_to_grid_pow2 (j a : Z) :
  (0 <= j <= a)%Z -> round_to_grid j (inject_Z (2 ^ a)) = (2 ^ a)%Z.
Proof.
  intro H. replace (2 ^ a)%Z with (2 ^ (a - j) * 2 ^ j)%Z
    by (rewrite <- Z.pow_add_r by lia; f_equal; lia).
  apply round_to_grid_fix. lia.
Qed.

Lemma floor_nonneg (X : Q) : 0 <= X -> (0 <= Qfloor X)%Z.
Proof.
  intro H. rewrite <- (Qfloor_Z 0). apply Qfloor_resp_le. exact H.
Qed.

Lemma below_next_pow2 (X : Q) :
  0 <= X -> X <= inject_Z (2 ^ (Z.log2 (Qfloor X) + 1)).
Proof.
  intro H. pose proof (floor_nonneg X H) as Hf.
  pose proof (Qlt_floor X) as Hlt.
  assert (Hz : (Qfloor X + 1 <= 2 ^ (Z.log2 (Qfloor X) + 1))%Z).
  { destruct (Z.eq_dec (Qfloor X) 0) as [->|Hne]; [simpl; lia|].
    assert (Qfloor X < 2 ^ (Z.log2 (Qfloor X) + 1))%Z
      by (apply Z.log2_lt_pow2; lia).
    lia. }
  rewrite Zle_Qle in Hz. lra.
Qed.

Lemma above_pow2 (X : Q) :
  (0 < Qfloor X)%Z -> inject_Z (2 ^ Z.log2 (Qfloor X)) <= X.
Proof.
  intro Hpos. pose proof (Qfloor_le X) as Hle.
  assert (Hz : (2 ^ Z.log2 (Qfloor X) <= Qfloor X)%Z)
    by (apply Z.log2_le_pow2; lia).
  rewrite Zle_Qle in Hz. lra.
Qed.

Lemma float32_units_upper (X : Q) :
  0 <= X -> (float32_units X <= 2 ^ (Z.log2 (Qfloor X) + 1))%Z.
Proof.
  intro H. unfold float32_units.
  set (L := Z.log2 (Qfloor X)). pose proof (Z.log2_nonneg (Qfloor X)) as HL. fold L in HL.
  rewrite <- (round_to_grid_pow2 (Z.max 0 (L - 23)) (L + 1)) by lia.
  apply round_to_grid_mono; [lia|]. apply below_next_pow2, H.
Qed.

Lemma float32_units_lower (X : Q) :
  (0 < Qfloor X)%Z -> (2 ^ Z.log2 (Qfloor X) <= float32_units X)%Z.
Proof.
  intro H. unfold float32_units.
  set (L := Z.log2 (Qfloor X)). pose proof (Z.log2_nonneg (Qfloor X)) as HL. fold L in HL.
  rewrite <- (round_to_grid_pow2 (Z.max 0 (L - 23)) L) at 1 by lia.
  apply round_to_grid_mono; [lia|]. apply above_pow2, H.
Qed.

Lemma float32_units_mono (X Y : Q) :
  0 <= X -> X <= Y -> (float32_units X <= float32_units Y)%Z.
Proof.
  intros HX HXY.
  pose proof (floor_nonneg X HX) as HfX.
  pose proof (Qfloor_resp_le X Y HXY) as Hf.
  pose proof (Z.log2_le_mono _ _ Hf) as HL.
  pose proof (Z.log2_nonneg (Qfloor X)) as HLX.
  destruct (Z.eq_dec (Z.max 0 (Z.log2 (Qfloor X) - 23)) (Z.max 0 (Z.log2 (Qfloor Y) - 23)))
    as [E|E].
  - unfold float32_units. rewrite <- E. apply round_to_grid_mono; [lia | exact HXY].
  - assert (HLlt : (Z.log2 (Qfloor X) + 1 <= Z.log2 (Qfloor Y))%Z) by lia.
    assert (HY : (0 < Qfloor Y)%Z).
    { destruct (Z.lt_ge_cases 0 (Qfloor Y)) as [|Hle]; [assumption|].
      rewrite (Z.log2_nonpos _ Hle) in HLlt. lia. }
    pose proof (float32_units_upper X HX) as HA.
    pose proof (float32_units_lower Y HY) as HB.
    pose proof (Z.pow_le_mono_r 2 _ _ ltac:(lia) HLlt). lia.
Qed.

Lemma float32_units_nonneg (X : Q) : 0 <= X -> (0 <= float32_units X)%Z.
Proof.
  intro H. unfold float32_units, round_to_grid.
  apply Z.mul_nonneg_nonneg; [|apply Z.pow_nonneg; lia].
  apply Z.le_trans with (round_half_even (inject_Z 0));
    [rewrite round_half_even_Z; lia|].
  apply round_half_even_mono.
  apply Qle_shift_div_l; [apply pow2_pos; lia|]. change (inject_Z 0) with 0. lra.
Qed.

Lemma float32_unit_pos : 0 < inject_Z (2 ^ 149).
Proof. apply pow2_pos. lia. Qed.

Lemma scaled_nonneg (x u : Q) : 0 <= x -> 0 < u -> 0 <= x * u.
Proof. intros Hx Hu. apply Qmult_le_0_compat; lra. Qed.

Lemma scaled_opp_nonneg (x u : Q) : ~ 0 <= x -> 0 < u -> 0 <= - x * u.
Proof. intros Hx Hu. apply Qmult_le_0_compat; lra. Qed.

Lemma np_float32_mono (x y : Q) : x <= y -> np_float32 x <= np_float32 y.
Proof.
  intro Hxy. unfold np_float32.
  pose proof float32_unit_pos as Hu. set (unit := inject_Z (2 ^ 149)) in *.
  apply Qmult_le_compat_r; [|apply Qlt_le_weak, Qinv_lt_0_compat, Hu].
  rewrite <- Zle_Qle.
  destruct (Qle_bool 0 x) eqn:Ex; destruct (Qle_bool 0 y) eqn:Ey.
  - apply Qle_bool_iff in Ex, Ey.
    apply Z.min_le_compat_r, float32_units_mono; [apply scaled_nonneg; assumption|].
    apply Qmult_le_compat_r; [exact Hxy | lra].
  - apply Qle_bool_iff in Ex.
    assert (Qle_bool 0 y = true) by (apply Qle_bool_iff; lra). congruence.
  - apply Qle_bool_iff in Ey.
    assert (Hx : ~ 0 <= x) by (intro H; apply Qle_bool_iff in H; congruence).
    pose proof (float32_units_nonneg (- x * unit) (scaled_opp_nonneg x unit Hx Hu)).
    pose proof (float32_units_nonneg (y * unit) (scaled_nonneg y unit Ey Hu)).
    unfold float32_inf. lia.
  - assert (Hx : ~ 0 <= x) by (intro H; apply Qle_bool_iff in H; congruence).
    assert (Hy : ~ 0 <= y) by (intro H; apply Qle_bool_iff in H; congruence).
    assert (float32_units (- y * unit) <= float32_units (- x * unit))%Z.
    { apply float32_units_mono; [apply scaled_opp_nonneg; assumption|].
      apply Qmult_le_compat_r; lra. }
    lia.
Qed.

Lemma np_float32_proper (x y : Q) : x == y -> np_float32 x == np_float32 y.
Proof.
  intro H. apply Qle_antisym; apply np_float32_mono; lra.
Qed.

Lemma float32_units_proper (X Y : Q) :
  0 <= X -> X == Y -> float32_units X = float32_units Y.
Proof.
  intros HX HXY. apply Z.le_antisymm; apply float32_units_mono; lra.
Qed.

Lemma float32_units_pow2 (a : Z) :
  (0 <= a)%Z -> float32_units (inject_Z (2 ^ a)) = (2 ^ a)%Z.
Proof.
  intro Ha. unfold float32_units. rewrite Qfloor_Z, Z.log2_pow2 by exact Ha.
  apply round_to_grid_pow2. lia.
Qed.

Lemma float32_units_idem (X : Q) :
  0 <= X -> float32_units (inject_Z (float32_units X)) = float32_units X.
Proof.
  intro HX.
  pose proof (floor_nonneg X HX) as Hf.
  pose proof (float32_units_upper X HX) as Hup.
  pose proof (float32_units_nonneg X HX) as Hnn.
  pose proof (Z.log2_nonneg (Qfloor X)) as HL.
  destruct (Z.eq_dec (float32_units X) (2 ^ (Z.log2 (Qfloor X) + 1))) as [E|E].
  { rewrite E. apply float32_units_pow2. lia. }
  destruct (Z.eq_dec (Qfloor X) 0) as [E0|E0].
  - rewrite E0 in Hup, E. change (2 ^ (Z.log2 0 + 1))%Z with 2%Z in Hup, E.
    assert (H : float32_units X = 0%Z \/ float32_units X = 1%Z) by lia.
    destruct H as [-> | ->]; reflexivity.
  - pose proof (float32_units_lower X ltac:(lia)) as Hlo.
    assert (Hlog : Z.log2 (float32_units X) = Z.log2 (Qfloor X)).
    { apply Z.log2_unique; [exact HL|]. unfold Z.succ. lia. }
    unfold float32_units at 1. rewrite Qfloor_Z, Hlog.
    unfold float32_units. unfold round_to_grid at 2.
    apply round_to_grid_fix. lia.
Qed.

Lemma float32_clamp_idem (X : Q) :
  0 <= X ->
  Z.min (float32_units (inject_Z (Z.min (float32_units X) float32_inf))) float32_inf
  = Z.min (float32_units X) float32_inf.
Proof.
  intro HX.
  destruct (Z.le_gt_cases (float32_units X) float32_inf) as [H|H].
  - rewrite (Z.min_l _ _ H), float32_units_idem by exact HX. apply Z.min_l, H.
  - rewrite (Z.min_r (float32_units X)) by lia.
    unfold float32_inf. rewrite float32_units_pow2 by lia. apply Z.min_id.
Qed.

Lemma np_float32_of_nonneg (x : Q) :
  0 <= x ->
  np_float32 x
  = inject_Z (Z.min (float32_units (x * inject_Z (2 ^ 149))) float32_inf)
    / inject_Z (2 ^ 149).
Proof.
  intro H. unfold np_float32.
  assert (Qle_bool 0 x = true) as -> by (apply Qle_bool_iff; exact H). reflexivity.
Qed.

Lemma np_float32_of_negative (x : Q) :
  x < 0 ->
  np_float32 x
  = inject_Z (- Z.min (float32_units (- x * inject_Z (2 ^ 149))) float32_inf)
    / inject_Z (2 ^ 149).
Proof.
  intro H. unfold np_float32.
  assert (Qle_bool 0 x = false) as ->; [|reflexivity].
  destruct (Qle_bool 0 x) eqn:E; [|reflexivity].
  apply Qle_bool_iff in E. lra.
Qed.

Lemma np_float32_idempotent (x : Q) : np_float32 (np_float32 x) == np_float32 x.
Proof.
  pose proof float32_unit_pos as Hu.
  assert (Hinf : (0 < float32_inf)%Z) by (unfold float32_inf; apply Z.pow_pos_nonneg; lia).
  destruct (Qlt_le_dec x 0) as [Hx|Hx].
  - rewrite (np_float32_of_negative x Hx).
    set (unit := inject_Z (2 ^ 149)) in *.
    assert (HX : 0 <= - x * unit) by (apply Qmult_le_0_compat; lra).
    pose proof (float32_units_nonneg _ HX) as Hnn.
    set (m := Z.min (float32_units (- x * unit)) float32_inf).
    assert (Hm : (0 <= m)%Z) by (unfold m; lia).
    destruct (Z.eq_dec m 0) as [E|E].
    + rewrite E. simpl Z.opp.
      rewrite (np_float32_proper (inject_Z 0 / unit) 0) by (field; lra).
      vm_compute. reflexivity.
    + assert (Hv : inject_Z (- m) / unit < 0).
      { apply Qlt_shift_div_r; [exact Hu|].
        assert (- m < 0)%Z by lia. rewrite Zlt_Qlt in H.
        change (inject_Z 0) with 0 in H. lra. }
      rewrite (np_float32_of_negative _ Hv). fold unit.
      rewrite (float32_units_proper (- (inject_Z (- m) / unit) * unit) (inject_Z m)).
      * unfold m. rewrite float32_clamp_idem by exact HX. reflexivity.
      * apply Qmult_le_0_compat; lra.
      * rewrite inject_Z_opp. field. lra.
  - rewrite (np_float32_of_nonneg x Hx).
    set (unit := inject_Z (2 ^ 149)) in *.
    pose proof (scaled_nonneg x unit Hx Hu) as HX.
    pose proof (float32_units_nonneg _ HX) as Hnn.
    set (m := Z.min (float32_units (x * unit)) float32_inf).
    assert (Hm : (0 <= m)%Z) by (unfold m; lia).
    assert (Hv : 0 <= inject_Z m / unit).
    { apply Qle_shift_div_l; [exact Hu|]. rewrite Zle_Qle in Hm.
      change (inject_Z 0) with 0 in Hm. lra. }
    rewrite (np_float32_of_nonneg _ Hv). fold unit.
    rewrite (float32_units_proper (inject_Z m / unit * unit) (inject_Z m)).
    + unfold m. rewrite float32_clamp_idem by exact HX. reflexivity.
    + apply scaled_nonneg; assumption.
    + field. lra.
Qed.

(** The comparison in single precision: it holds whenever the exact one
    does, fails only where the exact one fails, and is the exact one on
    float32 values. *)
Lemma float32_ge_of_le (a b : Q) : b <= a -> float32_ge a b = true.
Proof.
  intro H. unfold float32_ge. apply Qle_bool_iff, np_float32_mono, H.
Qed.


Lemma float32_ge_exact (a b : Q) :
  np_float32 a == a -> np_float32 b == b ->
  (float32_ge a b = true <-> b <= a).
Proof.
  intros Ha Hb. unfold float32_ge. rewrite Qle_bool_iff, Ha, Hb. reflexivity.
Qed.

Lemma float32_ge_antitone (s thr1 thr2 : Q) :
  thr1 <= thr2 -> float32_ge s thr2 = true -> float32_ge s thr1 = true.
Proof.
  unfold float32_ge. intros Hle H. apply Qle_bool_iff in H. apply Qle_bool_iff.
  apply Qle_trans with (np_float32 thr2); [apply np_float32_mono, Hle | exact H].
Qed.

(* ================================================================== *)
(** * Properties of the scorer *)

Lemma confidence_score_clamp (s : Q) :
  confidence_score s == clamp_spec s 0 1 * 100.
Proof.
  unfold confidence_score, clamp_spec, py_max, py_min.
  case_Qltb s 1; case_Qltb s 0; try case_Qltb 0 s; try case_Qltb 0 1;
    try case_Qltb 1 s; lra.
Qed.

Lemma clamp_spec_mono (s t : Q) :
  s <= t -> clamp_spec s 0 1 <= clamp_spec t 0 1.
Proof.
  intro Hst. unfold clamp_spec.
  case_Qltb s 0; case_Qltb t 0; try case_Qltb 1 s; try case_Qltb 1 t; lra.
Qed.

Lemma clamp_spec_range (s : Q) : 0 <= clamp_spec s 0 1 <= 1.
Proof.
  unfold clamp_spec.
  case_Qltb s 0; [lra|].
  case_Qltb 1 s; lra.
Qed.

(** C2.  For every similarity [s], [confidence_score s] is
    [clamp(s, 0, 1) * 100]; hence the score is monotonic non-decreasing over
    the whole domain, always lies in [0, 100], and a negative similarity is
    floored to the score 0 (a value, not a rejection). *)
Theorem confidence_score_is_scaled_clamp :
  (forall s, confidence_score s == clamp_spec s 0 1 * 100) /\
  (forall s t, s <= t -> confidence_score s <= confidence_score t) /\
  (forall s, 0 <= confidence_score s <= 100) /\
  (forall s, s < 0 -> confidence_score s == 0).
Proof.
  split; [exact confidence_score_clamp|].
  split; [|split].
  - intros s t Hst. rewrite !confidence_score_clamp.
    pose proof (clamp_spec_mono s t Hst). lra.
  - intro s. rewrite confidence_score_clamp.
    pose proof (clamp_spec_range s). lra.
  - intros s Hneg. rewrite confidence_score_clamp. unfold clamp_spec.
    apply Qltb_lt in Hneg. rewrite Hneg. reflexivity.
Qed.

(** C3.  The tiers of [confidence_label] are cut by strict comparisons tested
    from the top: above 95 "Extremely likely", in (90, 95] "Very likely", in
    (85, 90] "Possibly", at or below 85 "Unlikely"; the score 95 itself is
    "Very likely the same image". *)
Theorem confidence_label_strict_tiers :
  forall score : Q,
    (95 < score -> confidence_label score = "Extremely likely the same image"%string) /\
    (90 < score /\ score <= 95 ->
       confidence_label score = "Very likely the same image"%string) /\
    (85 < score /\ score <= 90 ->
       confidence_label score = "Possibly the same image"%string) /\
    (score <= 85 -> confidence_label score = "Unlikely to be the same image"%string) /\
    confidence_label 95 = "Very likely the same image"%string.
Proof.
  intro score. unfold confidence_label.
  repeat split; try intros [Hlo Hhi]; try intro H;
    case_Qltb 95 score; try case_Qltb 90 score; try case_Qltb 85 score;
    try reflexivity; lra.
Qed.

(** The boundary on sample scores: 95 and 95.0001, 90 and 85. *)
Example confidence_label_boundaries :
  confidence_label 95 = VERY_LIKELY /\
  confidence_label (950001 # 10000) = EXTREMELY_LIKELY /\
  confidence_label 90 = POSSIBLY /\
  confidence_label 85 = UNLIKELY.
Proof. repeat split. Qed.

(* ================================================================== *)
(** * Properties of the pairwise comparator *)

Section ComparatorFacts.
Variable linalg_norm : Embedding -> Q.
Variable env : Env.

Lemma compare_step_candidate (e : Embedding) (thr : Q) (acc : Acc) (p : string) :
  compare_step linalg_norm env e thr acc p =
  match candidate_similarity linalg_norm env e p with
  | None => acc
  | Some sim =>
      {| acc_exact_matches :=
           if float32_ge sim thr then S (acc_exact_matches acc)
           else acc_exact_matches acc;
         acc_total_compared := S (acc_total_compared acc);
         acc_similarities := acc_similarities acc ++ [sim];
         acc_match_details := acc_match_details acc ++ [detail_of (p, sim)] |}
  end.
Proof.
  unfold compare_step, candidate_similarity.
  destruct (os_path_exists env p); simpl; [|reflexivity].
  destruct (get_embedding env p) as [r|]; [|reflexivity].
  destruct (cosine_similarity linalg_norm e r); reflexivity.
Qed.

(** The loop in closed form: what it adds to each accumulator. *)
Lemma compare_loop_closed (e : Embedding) (thr : Q) (paths : list string) :
  forall acc,
    fold_left (compare_step linalg_norm env e thr) paths acc =
    let cs := compared linalg_norm env e paths in
    {| acc_exact_matches := acc_exact_matches acc + count_matches thr (map snd cs);
       acc_total_compared := acc_total_compared acc + List.length cs;
       acc_similarities := acc_similarities acc ++ map snd cs;
       acc_match_details := acc_match_details acc ++ map detail_of cs |}.
Proof.
  induction paths as [|p paths IH]; intro acc; simpl.
  - destruct acc; simpl. rewrite !Nat.add_0_r, !app_nil_r. reflexivity.
  - rewrite IH, compare_step_candidate. unfold compared; simpl.
    destruct (candidate_similarity linalg_norm env e p) as [sim|]; simpl;
      [|reflexivity].
    unfold count_matches; simpl.
    destruct (float32_ge sim thr); simpl; rewrite <- !app_assoc; simpl;
      f_equal; lia.
Qed.

(** The result on the path past both early returns. *)
Lemma compare_images_clip_normal (ref : string) (e : Embedding)
    (paths : list string) (thr : Q) :
  os_path_exists env ref = true ->
  get_embedding env ref = Some e ->
  compare_images_clip linalg_norm env ref paths thr =
  let cs := compared linalg_norm env e paths in
  let sims := map snd cs in
  {| exact_matches := count_matches thr sims;
     total_compared := List.length cs;
     is_dropshipping := (0 <? count_matches thr sims)%nat;
     match_ratio :=
       if (0 <? List.length cs)%nat
       then Qnat (count_matches thr sims) / Qnat (List.length cs) else 0;
     similarities := sims;
     match_details := map detail_of cs;
     avg_similarity :=
       Some (match sims with [] => 0 | _ :: _ => np_mean sims end) |}.
Proof.
  intros Hex Hemb. unfold compare_images_clip.
  rewrite Hex, Hemb. simpl negb. cbv iota.
  rewrite compare_loop_closed. reflexivity.
Qed.

(** The result on the two early returns. *)
Lemma compare_images_clip_early (ref : string) (paths : list string) (thr : Q) :
  os_path_exists env ref = false \/ get_embedding env ref = None ->
  compare_images_clip linalg_norm env ref paths thr = early_result.
Proof.
  intros [H|H]; unfold compare_images_clip.
  - rewrite H. reflexivity.
  - rewrite H. destruct (os_path_exists env ref); reflexivity.
Qed.

(** Every call takes one of the two paths. *)
Lemma compare_images_clip_cases (ref : string) :
  (os_path_exists env ref = false \/ get_embedding env ref = None) \/
  (exists e, os_path_exists env ref = true /\ get_embedding env ref = Some e).
Proof.
  destruct (os_path_exists env ref); [|left; left; reflexivity].
  destruct (get_embedding env ref) as [e|]; [|left; right; reflexivity].
  right. exists e. split; reflexivity.
Qed.

Lemma count_matches_le (thr : Q) (sims : list Q) :
  (count_matches thr sims <= List.length sims)%nat.
Proof. unfold count_matches. apply filter_length_le. Qed.

End ComparatorFacts.

(** Split a goal about [compare_images_clip] into its two paths and put the
    result of each in closed form. *)
Ltac by_path norm env ref paths thr :=
  destruct (compare_images_clip_cases env ref) as [Hearly | [e [Hex Hemb]]];
  [ rewrite (compare_images_clip_early norm env ref paths thr Hearly)
  | rewrite (compare_images_clip_normal norm env ref e paths thr Hex Hemb) ].

(** The counters and lists of a result agree with each other. *)
Lemma result_consistent :
  forall linalg_norm env ref paths thr,
    let r := compare_images_clip linalg_norm env ref paths thr in
    exact_matches r = count_matches thr (similarities r) /\
    List.length (similarities r) = total_compared r /\
    List.length (match_details r) = total_compared r /\
    map similarity (match_details r) = similarities r.
Proof.
  intros norm env ref paths thr r. subst r.
  by_path norm env ref paths thr; simpl.
  - repeat split.
  - rewrite !length_map, map_map. repeat split.
Qed.

(** A similarity the comparator records is a float32 value. *)
Lemma np_dot_float32 (a b : Embedding) (d : Q) :
  np_dot a b = Return d -> np_float32 d == d.
Proof.
  unfold np_dot. destruct (List.length a =? List.length b)%nat; [|discriminate].
  intro H. injection H as <-. apply np_float32_idempotent.
Qed.

Lemma candidate_similarity_float32 (linalg_norm : Embedding -> Q) (env : Env)
    (e : Embedding) (p : string) (sim : Q) :
  candidate_similarity linalg_norm env e p = Some sim -> np_float32 sim == sim.
Proof.
  unfold candidate_similarity.
  destruct (os_path_exists env p); [|discriminate].
  destruct (get_embedding env p) as [r|]; [|discriminate].
  destruct (cosine_similarity linalg_norm e r) as [d|x] eqn:Hd; [|discriminate].
  intro H. injection H as <-. exact (np_dot_float32 _ _ _ Hd).
Qed.

Lemma compared_in (linalg_norm : Embedding -> Q) (env : Env) (e : Embedding)
    (paths : list string) (p : string) (s : Q) :
  In (p, s) (compared linalg_norm env e paths) <->
  In p paths /\ candidate_similarity linalg_norm env e p = Some s.
Proof.
  unfold compared. rewrite in_flat_map. split.
  - intros [q [Hq Hin]].
    destruct (candidate_similarity linalg_norm env e q) as [t|] eqn:E;
      [|contradiction].
    destruct Hin as [[= <- <-]|[]]. split; assumption.
  - intros [Hp Hs]. exists p. split; [exact Hp|]. rewrite Hs. left. reflexivity.
Qed.

(** The comparison of a recorded similarity with the threshold, in the
    terms of the exact order. *)
Lemma float32_ge_recorded (sim thr : Q) :
  np_float32 sim == sim ->
  (float32_ge sim thr = true <-> np_float32 thr <= sim) /\
  (float32_ge sim thr = false <-> sim < np_float32 thr).
Proof.
  intro Hsim. unfold float32_ge. split.
  - rewrite Qle_bool_iff, Hsim. reflexivity.
  - rewrite Qle_bool_false, Hsim. reflexivity.
Qed.



(** C5.  In every result of [compare_images_clip], [match_ratio] is
    [exact_matches / total_compared] when something was compared and 0.0
    when nothing was (no division by zero); hence it lies in [0, 1], and
    [exact_matches] never exceeds [total_compared]. *)
Theorem match_ratio_is_guarded_quotient :
  forall linalg_norm env original_image_path search_result_paths similarity_threshold,
    let r := compare_images_clip linalg_norm env original_image_path
                                 search_result_paths similarity_threshold in
    ((0 < total_compared r)%nat ->
       match_ratio r == Qnat (exact_matches r) / Qnat (total_compared r)) /\
    (total_compared r = 0%nat -> match_ratio r = 0) /\
    0 <= match_ratio r <= 1 /\
    (exact_matches r <= total_compared r)%nat.
Proof.
  intros norm env ref paths thr r. subst r.
  by_path norm env ref paths thr; simpl.
  - repeat split; try lia; try lra; reflexivity.
  - set (cs := compared norm env e paths).
    assert (Hle : (count_matches thr (map snd cs) <= List.length cs)%nat).
    { rewrite <- (length_map snd cs). apply count_matches_le. }
    destruct (List.length cs) as [|n] eqn:Hn; simpl.
    + repeat split; try lia; try lra; reflexivity.
    + repeat split; try lia; try reflexivity;
        apply (ratio_in_unit_interval _ (S n)); lia.
Qed.


(** On the path past the early returns, [avg_similarity] is present and is
    the arithmetic mean of the similarities of all compared candidates, 0.0
    when there are none. *)
Lemma avg_similarity_normal_path :
  forall linalg_norm env original_image_path original_embedding
         search_result_paths similarity_threshold,
    os_path_exists env original_image_path = true ->
    get_embedding env original_image_path = Some original_embedding ->
    let r := compare_images_clip linalg_norm env original_image_path
                                 search_result_paths similarity_threshold in
    let sims := map snd (compared linalg_norm env original_embedding
                                  search_result_paths) in
    similarities r = sims /\
    exists avg,
      avg_similarity r = Some avg /\
      (sims = [] -> avg = 0) /\
      (sims <> [] -> avg == fold_right Qplus 0 sims / Qnat (List.length sims)).
Proof.
  intros norm env ref e paths thr Hex Hemb r sims. subst r sims.
  rewrite (compare_images_clip_normal norm env ref e paths thr Hex Hemb). simpl.
  split; [reflexivity|].
  destruct (map snd (compared norm env e paths)) as [|s sims] eqn:Hs.
  - exists 0. split; [reflexivity|]. split; [reflexivity|].
    intro H. contradiction H. reflexivity.
  - exists (np_mean (s :: sims)). split; [reflexivity|].
    split; [discriminate|]. intros _. reflexivity.
Qed.

Lemma avg_similarity_normal_path_sample :
  exists avg,
    avg_similarity
      (compare_images_clip sample_norm sample_env "data/original/ref.jpg"
         ["data/downloaded/same.jpg"; "data/downloaded/far.jpg"]%string (6 # 10))
    = Some avg /\ avg == 1 # 2.
Proof.
  destruct (avg_similarity_normal_path sample_norm sample_env
              "data/original/ref.jpg" [1; 0]
              ["data/downloaded/same.jpg"; "data/downloaded/far.jpg"]%string (6 # 10)
              eq_refl eq_refl) as [_ [avg [Havg [_ Hmean]]]].
  exists avg. split; [exact Havg|].
  rewrite Hmean; [reflexivity | discriminate].
Defined.

(** A reference image that is missing or does not decode: every field of
    the result is the zero value, the lists are empty, and the
    [avg_similarity] key is absent. *)
Lemma early_return_fields :
  forall linalg_norm env original_image_path search_result_paths similarity_threshold,
    os_path_exists env original_image_path = false \/
    get_embedding env original_image_path = None ->
    let r := compare_images_clip linalg_norm env original_image_path
                                 search_result_paths similarity_threshold in
    exact_matches r = 0%nat /\ total_compared r = 0%nat /\
    is_dropshipping r = false /\ match_ratio r = 0 /\
    similarities r = [] /\ match_details r = [] /\
    avg_similarity r = None.
Proof.
  intros norm env ref paths thr Hearly r. subst r.
  rewrite (compare_images_clip_early norm env ref paths thr Hearly).
  repeat split.
Qed.

Lemma early_return_fields_sample :
  let r := compare_images_clip sample_norm sample_env "data/original/missing.jpg"
                               ["data/downloaded/same.jpg"]%string (85 # 100) in
  total_compared r = 0%nat /\ avg_similarity r = None.
Proof.
  destruct (early_return_fields sample_norm sample_env "data/original/missing.jpg"
              ["data/downloaded/same.jpg"]%string (85 # 100) (or_introl eq_refl))
    as (_ & Htotal & _ & _ & _ & _ & Havg).
  split; assumption.
Defined.

(** C1 (the code departs from it).  A reference image that is missing, or
    that does not decode, gives the dictionary of the early returns: counts
    0, ratio 0.0, verdict false, empty lists, and no [avg_similarity] key at
    all, where the path past the early returns stores 0.0 for an empty
    comparison.  The orchestrator reads that key unconditionally and so
    raises [KeyError] for such a reference. *)
Theorem early_return_has_no_avg_similarity :
  let paths := ["data/downloaded/same.jpg"; "data/downloaded/far.jpg"]%string in
  compare_images_clip sample_norm sample_env "data/original/missing.jpg" paths (85 # 100)
    = early_result /\
  compare_images_clip sample_norm sample_env "data/original/broken.jpg" paths (85 # 100)
    = early_result /\
  avg_similarity early_result = None /\
  avg_similarity
    (compare_images_clip sample_norm sample_env "data/original/ref.jpg" [] (85 # 100))
    = Some 0 /\
  report_entry sample_norm sample_env "data/original/broken.jpg" paths (6 # 10)
    = Raise KeyError /\
  compare_original_with_downloaded sample_norm sample_env
    "data/original" "data/downloaded" (6 # 10) = Raise KeyError.
Proof. vm_compute. repeat split. Qed.

(** C6 (the code departs from it).  With a reference image that does not
    decode nothing is compared, and the result has no [avg_similarity] to
    equal 0.0; with a reference that decodes and the same candidates the key
    holds the mean of all compared similarities, below the threshold
    included. *)
Theorem avg_similarity_missing_when_reference_fails :
  let paths := ["data/downloaded/same.jpg"; "data/downloaded/far.jpg"]%string in
  let failed :=
    compare_images_clip sample_norm sample_env "data/original/broken.jpg" paths (6 # 10) in
  let normal :=
    compare_images_clip sample_norm sample_env "data/original/ref.jpg" paths (6 # 10) in
  total_compared failed = 0%nat /\
  avg_similarity failed = None /\
  map Qred (similarities normal) = [1; 0] /\
  exact_matches normal = 1%nat /\
  option_map Qred (avg_similarity normal) = Some (1 # 2).
Proof. vm_compute. repeat split. Qed.

(* ================================================================== *)
(** * Properties of the stable sort *)

Section StableSortFacts.
Context {A : Type} (strictly : A -> A -> bool).

(** [a] may stand before [b]: [b] does not have to precede [a]. *)
Let may_precede (a b : A) : Prop := strictly b a = false.

Lemma insert_stable_perm (x : A) (l : list A) :
  Permutation (x :: l) (insert_stable strictly x l).
Proof.
  induction l as [|y l IH]; simpl.
  - apply Permutation_refl.
  - destruct (strictly y x).
    + apply perm_trans with (y :: x :: l); [apply perm_swap|].
      apply perm_skip. exact IH.
    + apply Permutation_refl.
Qed.

Lemma sort_stable_perm (l : list A) : Permutation l (sort_stable strictly l).
Proof.
  induction l as [|x l IH]; simpl.
  - apply perm_nil.
  - apply perm_trans with (x :: sort_stable strictly l).
    + apply perm_skip. exact IH.
    + apply insert_stable_perm.
Qed.

Lemma sort_stable_length (l : list A) :
  List.length (sort_stable strictly l) = List.length l.
Proof. symmetry. apply Permutation_length, sort_stable_perm. Qed.

Hypothesis strictly_asym : forall x y, strictly x y = true -> strictly y x = false.

Lemma insert_stable_HdRel (y x : A) (l : list A) :
  HdRel may_precede y l -> may_precede y x ->
  HdRel may_precede y (insert_stable strictly x l).
Proof.
  intros Hhd Hyx. destruct l as [|z l]; simpl.
  - constructor. exact Hyx.
  - destruct (strictly z x).
    + constructor. apply HdRel_inv in Hhd. exact Hhd.
    + constructor. exact Hyx.
Qed.

Lemma insert_stable_sorted (x : A) (l : list A) :
  Sorted may_precede l -> Sorted may_precede (insert_stable strictly x l).
Proof.
  induction l as [|y l IH]; intro Hs; simpl.
  - repeat constructor.
  - apply Sorted_inv in Hs. destruct Hs as [Hs Hhd].
    destruct (strictly y x) eqn:E.
    + constructor; [apply IH; exact Hs|].
      apply insert_stable_HdRel; [exact Hhd|].
      apply strictly_asym. exact E.
    + constructor; [constructor; assumption|].
      constructor. exact E.
Qed.

Lemma sort_stable_sorted (l : list A) : Sorted may_precede (sort_stable strictly l).
Proof.
  induction l as [|x l IH]; simpl.
  - constructor.
  - apply insert_stable_sorted. exact IH.
Qed.
End StableSortFacts.

Lemma Sorted_weaken {A} (R R' : A -> A -> Prop) (l : list A) :
  (forall a b, R a b -> R' a b) -> Sorted R l -> Sorted R' l.
Proof.
  intros Himp Hs. induction Hs as [|a l Hs IH Hhd].
  - constructor.
  - constructor; [exact IH|].
    destruct Hhd; constructor. apply Himp. assumption.
Qed.

Lemma StronglySorted_filter {A} (R : A -> A -> Prop) (f : A -> bool) (l : list A) :
  StronglySorted R l -> StronglySorted R (filter f l).
Proof.
  intro Hs. induction Hs as [|a l Hs IH Hall]; simpl.
  - constructor.
  - destruct (f a); [|exact IH].
    constructor; [exact IH|].
    apply Forall_forall. intros x Hx. apply filter_In in Hx.
    rewrite Forall_forall in Hall. apply Hall. tauto.
Qed.

Lemma StronglySorted_firstn {A} (R : A -> A -> Prop) (n : nat) (l : list A) :
  StronglySorted R l -> StronglySorted R (firstn n l).
Proof.
  intro Hs. revert n. induction Hs as [|a l Hs IH Hall]; intro n.
  - rewrite firstn_nil. constructor.
  - destruct n as [|n]; simpl; [constructor|].
    constructor; [apply IH|].
    apply Forall_forall. intros x Hx.
    rewrite Forall_forall in Hall. apply Hall.
    rewrite <- (firstn_skipn n l). apply in_or_app. left. exact Hx.
Qed.

Lemma Permutation_filter_length {A} (f : A -> bool) (l l' : list A) :
  Permutation l l' -> List.length (filter f l) = List.length (filter f l').
Proof.
  intro Hp. induction Hp; simpl.
  - reflexivity.
  - destruct (f x); simpl; congruence.
  - destruct (f x), (f y); reflexivity.
  - congruence.
Qed.

Lemma filter_length_map {A B} (g : A -> B) (f : B -> bool) (l : list A) :
  List.length (filter (fun a => f (g a)) l) = List.length (filter f (map g l)).
Proof.
  induction l as [|a l IH]; simpl; [reflexivity|].
  destruct (f (g a)); simpl; congruence.
Qed.

(** [sort(key=similarity, reverse=True)] leaves the list in descending order
    of similarity and keeps its elements. *)
Lemma sort_by_similarity_desc_sorted (l : list MatchDetail) :
  StronglySorted (fun a b => similarity b <= similarity a) (sort_by_similarity_desc l).
Proof.
  apply Sorted_StronglySorted.
  - intros a b c Hab Hbc. apply Qle_trans with (similarity b); assumption.
  - apply Sorted_weaken with (R := fun a b => Qltb (similarity a) (similarity b) = false).
    + intros a b H. apply Qltb_ge. exact H.
    + unfold sort_by_similarity_desc.
      apply (sort_stable_sorted (fun y x => Qltb (similarity x) (similarity y))).
      intros x y H. apply Qltb_lt in H. apply Qltb_ge. lra.
Qed.

Lemma sort_by_similarity_desc_perm (l : list MatchDetail) :
  Permutation l (sort_by_similarity_desc l).
Proof. apply sort_stable_perm. Qed.

(** Ties keep the order of the comparison: the sort is stable. *)
Example sort_by_similarity_desc_stable :
  map path
    (sort_by_similarity_desc
       [ {| path := "a"; similarity := 1 # 2; confidence := 50; label := UNLIKELY |};
         {| path := "b"; similarity := 9 # 10; confidence := 90; label := POSSIBLY |};
         {| path := "c"; similarity := 2 # 4; confidence := 50; label := UNLIKELY |};
         {| path := "d"; similarity := 9 # 10; confidence := 90; label := POSSIBLY |} ])
  = ["b"; "d"; "a"; "c"]%string.
Proof. reflexivity. Qed.

(* ================================================================== *)
(** * Properties of the batch orchestrator *)

(** The records the orchestrator's filter keeps are among those the
    comparator's loop counted: at or above the threshold in the exact order
    is at or above it in single precision. *)
Lemma qualifying_le_counted (thr : Q) (sims : list Q) :
  (List.length (filter (Qle_bool thr) sims) <= count_matches thr sims)%nat.
Proof.
  unfold count_matches. induction sims as [|sim sims IH]; simpl; [lia|].
  case_Qle thr sim.
  - rewrite (float32_ge_of_le sim thr E). simpl. lia.
  - destruct (float32_ge sim thr); simpl; lia.
Qed.

(** The entry the orchestrator reports for a reference image.  It holds in
    [top_matches] only records at or above the threshold, in descending
    order of similarity, all of them records of the comparison, and at most
    10 of them: as many as the comparison has records at or above the
    threshold, capped at 10, and never more than the matches counted.  The
    statistics stored beside the list are those of the comparison over the
    entire candidate set, so with 15 records at or above the threshold the
    list has exactly 10 entries while [exact_matches] is at least 15, and
    equal to 15 when the count is the number of those records.  An entry is
    reported for every reference whose embedding is produced. *)
Theorem report_entry_top_matches_capped :
  forall linalg_norm env orig_img downloaded_paths similarity_threshold,
    let comparison := compare_images_clip linalg_norm env orig_img downloaded_paths
                                          similarity_threshold in
    let reported := report_entry linalg_norm env orig_img downloaded_paths
                                 similarity_threshold in
    let qualifying :=
      filter (fun m => Qle_bool similarity_threshold (similarity m))
             (match_details comparison) in
    (forall e, os_path_exists env orig_img = true ->
               get_embedding env orig_img = Some e ->
               exists entry, reported = Return entry) /\
    (forall entry, reported = Return entry ->
       Forall (fun m => similarity_threshold <= similarity m) (rep_top_matches entry) /\
       StronglySorted (fun a b => similarity b <= similarity a) (rep_top_matches entry) /\
       incl (rep_top_matches entry) (match_details comparison) /\
       (List.length (rep_top_matches entry) <= 10)%nat /\
       List.length (rep_top_matches entry) = Nat.min 10 (List.length qualifying) /\
       (List.length qualifying <= rep_exact_matches entry)%nat /\
       (List.length (rep_top_matches entry) <= Nat.min 10 (rep_exact_matches entry))%nat /\
       rep_total_compared entry = total_compared comparison /\
       rep_total_compared entry = List.length (similarities comparison) /\
       rep_exact_matches entry = exact_matches comparison /\
       rep_exact_matches entry =
         count_matches similarity_threshold (similarities comparison) /\
       rep_match_ratio entry = match_ratio comparison /\
       avg_similarity comparison = Some (rep_avg_similarity entry) /\
       (List.length qualifying = 15%nat ->
        List.length (rep_top_matches entry) = 10%nat /\
        (15 <= rep_exact_matches entry)%nat) /\
       (List.length qualifying = 15%nat ->
        rep_exact_matches entry = List.length qualifying ->
        List.length (rep_top_matches entry) = 10%nat /\
        rep_exact_matches entry = 15%nat)).
Proof.
  intros norm env ref paths thr comparison reported qualifying.
  pose proof (result_consistent norm env ref paths thr)
    as (Hcount & Hlen & _ & Hsims).
  fold comparison in Hcount, Hlen, Hsims.
  subst reported. unfold report_entry. fold comparison.
  split.
  - intros e Hex Hemb. subst comparison.
    rewrite (compare_images_clip_normal norm env ref e paths thr Hex Hemb). simpl.
    eexists. reflexivity.
  - intros entry Hentry.
    destruct (avg_similarity comparison) as [avg|] eqn:Havg; [|discriminate].
    set (sorted := sort_by_similarity_desc (match_details comparison)) in Hentry.
    set (keep := fun m : MatchDetail => Qle_bool thr (similarity m)) in *.
    set (top := firstn 10 (filter keep sorted)) in Hentry.
    injection Hentry as <-.
    cbn [rep_top_matches rep_exact_matches rep_total_compared rep_match_ratio
         rep_avg_similarity].
    subst top.
    assert (Hkept : List.length (filter keep sorted) = List.length qualifying).
    { unfold sorted, qualifying.
      symmetry. apply Permutation_filter_length, sort_by_similarity_desc_perm. }
    assert (Hcap : List.length (firstn 10 (filter keep sorted))
                   = Nat.min 10 (List.length qualifying)).
    { rewrite length_firstn, Hkept. reflexivity. }
    assert (Hle : (List.length qualifying <= exact_matches comparison)%nat).
    { unfold qualifying, keep.
      rewrite (filter_length_map similarity (Qle_bool thr)), Hsims, Hcount.
      apply qualifying_le_counted. }
    repeat split.
    + apply Forall_forall. intros m Hm.
      assert (In m (filter keep sorted)) as Hin.
      { rewrite <- (firstn_skipn 10 (filter keep sorted)).
        apply in_or_app. left. exact Hm. }
      apply filter_In in Hin. apply Qle_bool_iff. apply Hin.
    + apply StronglySorted_firstn, StronglySorted_filter.
      apply sort_by_similarity_desc_sorted.
    + intros m Hm.
      assert (In m (filter keep sorted)) as Hin.
      { rewrite <- (firstn_skipn 10 (filter keep sorted)).
        apply in_or_app. left. exact Hm. }
      apply filter_In in Hin. destruct Hin as [Hin _].
      apply Permutation_in with (l := sorted); [|exact Hin].
      apply Permutation_sym, sort_by_similarity_desc_perm.
    + rewrite Hcap. lia.
    + exact Hcap.
    + exact Hle.
    + rewrite Hcap. lia.
    + symmetry. exact Hlen.
    + exact Hcount.
    + rewrite Hcap, H. reflexivity.
    + lia.
    + rewrite Hcap, H. reflexivity.
    + lia.
Qed.

(** Fifteen perfect matches: ten are presented, fifteen are counted. *)
Lemma report_entry_fifteen_matches :
  exists entry,
    report_entry sample_norm uniform_env "o/ref.jpg" fifteen_paths (6 # 10)
      = Return entry /\
    rep_exact_matches entry = 15%nat /\
    rep_total_compared entry = 15%nat /\
    List.length (rep_top_matches entry) = 10%nat.
Proof.
  destruct (report_entry_top_matches_capped sample_norm uniform_env
              "o/ref.jpg" fifteen_paths (6 # 10)) as [Hreported Hentry].
  destruct (Hreported [1; 0] eq_refl eq_refl) as [entry Hret].
  exists entry. split; [exact Hret|].
  destruct (Hentry entry Hret)
    as (_ & _ & _ & _ & _ & _ & _ & Htotal & _ & Hexact & _ & _ & _ & _ & H15).
  assert (rep_exact_matches entry = 15%nat) as Hfifteen
    by (rewrite Hexact; vm_compute; reflexivity).
  split; [exact Hfifteen|].
  split; [rewrite Htotal; vm_compute; reflexivity|].
  apply H15; [vm_compute; reflexivity|].
  rewrite Hfifteen. vm_compute. reflexivity.
Defined.

(** C9 (the code departs from it).  The comparator counts a match with
    [sim >= similarity_threshold] on an [np.float32], in single precision;
    the orchestrator filters the stored [float(sim)] with the same
    expression on two Python floats, in double precision.  At the threshold
    0.9, whose float32 lies below it, a candidate whose similarity is that
    float32 is counted and not presented: with fifteen such candidates
    [exact_matches] is 15 and [top_matches] is empty, in the loop body and
    in the report of the batch, where fifteen candidates well above the
    threshold give 15 and a list of 10. *)
Theorem report_entry_counts_what_it_does_not_present :
  let boundary :=
    compare_images_clip sample_norm boundary_env "o/ref.jpg" fifteen_paths (9 # 10) in
  Forall (fun sim => sim == 15099494 # 16777216 /\ sim < 9 # 10)
         (similarities boundary) /\
  exact_matches boundary = 15%nat /\
  (exists entry,
     report_entry sample_norm boundary_env "o/ref.jpg" fifteen_paths (9 # 10)
       = Return entry /\
     rep_total_compared entry = 15%nat /\
     rep_exact_matches entry = 15%nat /\
     rep_top_matches entry = []) /\
  (exists entry,
     compare_original_with_downloaded sample_norm boundary_env "o" "d" (9 # 10)
       = Return [("ref.jpg"%string, entry)] /\
     rep_total_compared entry = 15%nat /\
     rep_exact_matches entry = 15%nat /\
     rep_top_matches entry = []) /\
  (exists entry,
     report_entry sample_norm boundary_env "o/ref.jpg" ["d/01.jpg"%string] (9 # 10)
       = Return entry /\
     rep_exact_matches entry = 1%nat /\
     rep_top_matches entry = []) /\
  (exists entry,
     report_entry sample_norm uniform_env "o/ref.jpg" fifteen_paths (9 # 10)
       = Return entry /\
     rep_exact_matches entry = 15%nat /\
     List.length (rep_top_matches entry) = 10%nat).
Proof.
  split; [vm_compute; repeat constructor|].
  vm_compute. repeat split; eexists; repeat split.
Qed.

Lemma dict_set_in {V} (dict : list (string * V)) (key : string) (value : V) :
  forall k v,
    In (k, v) (dict_set dict key value) ->
    (k = key /\ v = value) \/ In (k, v) dict.
Proof.
  induction dict as [|[k0 v0] dict IH]; simpl; intros k v H.
  - destruct H as [[= <- <-]|[]]. left. split; reflexivity.
  - destruct (String.eqb k0 key) eqn:E.
    + apply String.eqb_eq in E. subst k0.
      destruct H as [[= <- <-]|H]; [left; split; reflexivity | right; right; exact H].
    + destruct H as [H|H]; [right; left; exact H|].
      destruct (IH k v H) as [Hnew|Hold]; [left; exact Hnew | right; right; exact Hold].
Qed.

Lemma report_loop_entries (linalg_norm : Embedding -> Q) (env : Env)
    (downloaded_paths : list string) (thr : Q) (original_images : list string) :
  forall results report,
    report_loop linalg_norm env original_images downloaded_paths thr results
      = Return report ->
    forall name entry,
      In (name, entry) report ->
      In (name, entry) results \/
      exists orig_img,
        In orig_img original_images /\ name = path_name orig_img /\
        report_entry linalg_norm env orig_img downloaded_paths thr = Return entry.
Proof.
  induction original_images as [|orig rest IH]; simpl; intros results report Hrun name entry Hin.
  - injection Hrun as <-. left. exact Hin.
  - destruct (report_entry linalg_norm env orig downloaded_paths thr) as [e|x] eqn:He;
      simpl in Hrun; [|discriminate].
    destruct (IH _ _ Hrun name entry Hin) as [Hset|[o [Ho [Hname Hentry]]]].
    + apply dict_set_in in Hset. destruct Hset as [[-> ->]|Hold].
      * right. exists orig. split; [left; reflexivity|]. split; [reflexivity | exact He].
      * left. exact Hold.
    + right. exists o. split; [right; exact Ho|]. split; assumption.
Qed.

(** Every entry of the batch report is the entry [report_entry] builds for
    one of the reference images against all image files of the download
    folder, stored under that image's file name. *)
Lemma batch_report_entries :
  forall linalg_norm env original_folder downloaded_folder similarity_threshold report,
    compare_original_with_downloaded linalg_norm env original_folder downloaded_folder
                                     similarity_threshold = Return report ->
    forall name entry,
      In (name, entry) report ->
      exists original_images downloaded_images orig_img,
        image_files env original_folder = Return original_images /\
        image_files env downloaded_folder = Return downloaded_images /\
        In orig_img original_images /\
        name = path_name orig_img /\
        report_entry linalg_norm env orig_img downloaded_images similarity_threshold
          = Return entry.
Proof.
  intros norm env ofolder dfolder thr report Hrun name entry Hin.
  unfold compare_original_with_downloaded in Hrun.
  destruct (os_path_exists env ofolder); simpl in Hrun;
    [|injection Hrun as <-; contradiction].
  destruct (os_path_exists env dfolder); simpl in Hrun;
    [|injection Hrun as <-; contradiction].
  destruct (image_files env ofolder) as [originals|x] eqn:Ho; simpl in Hrun; [|discriminate].
  destruct (image_files env dfolder) as [downloaded|x] eqn:Hd; simpl in Hrun; [|discriminate].
  destruct originals as [|o originals]; [injection Hrun as <-; contradiction|].
  destruct downloaded as [|d0 downloaded]; [injection Hrun as <-; contradiction|].
  destruct (report_loop_entries norm env (d0 :: downloaded) thr (o :: originals)
              [] report Hrun name entry Hin) as [[]|[orig [Horig [Hname Hentry]]]].
  exists (o :: originals), (d0 :: downloaded), orig. repeat split; assumption.
Qed.

(** Two references against four decodable candidates at threshold 0.6: the
    report holds one entry per reference, keyed by file name. *)
Lemma batch_report_entries_sample :
  exists report,
    compare_original_with_downloaded sample_norm sample_env
      "data/refs" "data/downloaded" (6 # 10) = Return report /\
    map fst report = ["ref.jpg"; "other.JPG"]%string /\
    map (fun kv => rep_exact_matches (snd kv)) report = [3; 3]%nat /\
    forall name entry,
      In (name, entry) report ->
      exists original_images downloaded_images orig_img,
        image_files sample_env "data/refs" = Return original_images /\
        image_files sample_env "data/downloaded" = Return downloaded_images /\
        In orig_img original_images /\
        name = path_name orig_img /\
        report_entry sample_norm sample_env orig_img downloaded_images (6 # 10)
          = Return entry.
Proof.
  destruct (compare_original_with_downloaded sample_norm sample_env
              "data/refs" "data/downloaded" (6 # 10)) as [report|x] eqn:Hrun;
    [|vm_compute in Hrun; discriminate].
  exists report. split; [reflexivity|].
  pose proof (batch_report_entries sample_norm sample_env
                "data/refs" "data/downloaded" (6 # 10) report Hrun) as Hentries.
  vm_compute in Hrun. injection Hrun as <-.
  split; [reflexivity|]. split; [reflexivity|]. exact Hentries.
Defined.

(* ================================================================== *)
(** * Properties of the nearest-neighbour search *)

Lemma py_index_nat {A} (l : list A) (i : nat) (x : A) :
  nth_error l i = Some x -> py_index l (Z.of_nat i) = Return x.
Proof.
  intro H. unfold py_index.
  assert (i < List.length l)%nat as Hlt by (apply nth_error_Some; congruence).
  destruct (Z.of_nat i <? 0)%Z eqn:Hneg; [apply Z.ltb_lt in Hneg; lia|].
  destruct ((Z.of_nat i <? 0) || (Z.of_nat (List.length l) <=? Z.of_nat i))%Z eqn:Hout.
  - apply orb_true_iff in Hout. destruct Hout as [Ho|Ho].
    + congruence.
    + apply Z.leb_le in Ho. lia.
  - rewrite Nat2Z.id, H. reflexivity.
Qed.

Lemma cosine_similarity_returns (linalg_norm : Embedding -> Q) (a b : Embedding) :
  List.length a = List.length b ->
  exists sim, cosine_similarity linalg_norm a b = Return sim.
Proof.
  intro H. unfold cosine_similarity, np_dot, np_div.
  rewrite !length_map, H, Nat.eqb_refl. eexists. reflexivity.
Qed.

Lemma StronglySorted_map_le {A} (f : A -> Q) (l : list A) :
  StronglySorted (fun a b => f a <= f b) l -> StronglySorted Qle (map f l).
Proof.
  intro Hs. induction Hs as [|a l Hs IH Hall]; simpl; constructor.
  - exact IH.
  - apply Forall_forall. intros x Hx. apply in_map_iff in Hx.
    destruct Hx as [y [<- Hy]]. rewrite Forall_forall in Hall. apply Hall, Hy.
Qed.

Lemma StronglySorted_app_le {A} (R : A -> A -> Prop) (l1 l2 : list A) :
  StronglySorted R (l1 ++ l2) ->
  forall a b, In a l1 -> In b l2 -> R a b.
Proof.
  induction l1 as [|x l1 IH]; simpl; intros Hs a b Ha Hb; [contradiction|].
  apply StronglySorted_inv in Hs. destruct Hs as [Hs Hall].
  destruct Ha as [<-|Ha].
  - rewrite Forall_forall in Hall. apply Hall. apply in_or_app. right. exact Hb.
  - apply IH; assumption.
Qed.

(** The distances listed beside the ids are the distances of those rows. *)
Lemma in_combine_seq_map {A B} (g : A -> B) (l : list A) :
  forall s i x,
    In (i, x) (combine (seq s (List.length l)) (map g l)) ->
    (s <= i)%nat /\ exists v, nth_error l (i - s) = Some v /\ x = g v.
Proof.
  induction l as [|a l IH]; simpl; intros s i x H; [contradiction|].
  destruct H as [H|H].
  - injection H as <- <-. split; [lia|].
    exists a. rewrite Nat.sub_diag. split; reflexivity.
  - apply IH in H. destruct H as [Hle [v [Hv Hx]]]. split; [lia|].
    exists v. split; [|exact Hx].
    replace (i - s)%nat with (S (i - S s)) by lia. exact Hv.
Qed.

Lemma combine_seq_map_in {A B} (g : A -> B) (l : list A) :
  forall s j v,
    nth_error l j = Some v ->
    In ((s + j)%nat, g v) (combine (seq s (List.length l)) (map g l)).
Proof.
  induction l as [|a l IH]; intros s j v H.
  - destruct j; discriminate.
  - destruct j as [|j]; simpl in *.
    + injection H as <-. left. rewrite Nat.add_0_r. reflexivity.
    + right. replace (s + S j)%nat with (S s + j)%nat by lia. apply IH. exact H.
Qed.

Lemma map_fst_combine_seq {A} (l : list A) (s : nat) :
  map fst (combine (seq s (List.length l)) l) = seq s (List.length l).
Proof.
  revert s. induction l as [|a l IH]; intro s; simpl; [reflexivity|].
  rewrite IH. reflexivity.
Qed.

Section SearchFacts.
Variable linalg_norm : Embedding -> Q.
Variable env : Env.

(** The gathering loop keeps one path per embedding, and every embedding
    it keeps comes from the provider. *)
Lemma gather_invariant (folder : string) (filenames : list string) :
  forall acc,
    List.length (fst acc) = List.length (snd acc) ->
    let out := fold_left (gather_step env folder) filenames acc in
    List.length (fst out) = List.length (snd out) /\
    forall dim, fixed_width env dim ->
                Forall (fun e => List.length e = dim) (fst acc) ->
                Forall (fun e => List.length e = dim) (fst out).
Proof.
  induction filenames as [|f filenames IH]; intros acc Hacc; simpl.
  - split; [exact Hacc|]. intros dim _ H. exact H.
  - set (acc' := gather_step env folder acc f).
    assert (Hlen' : List.length (fst acc') = List.length (snd acc')).
    { subst acc'. unfold gather_step.
      destruct (is_image_name f); [|exact Hacc].
      destruct (get_embedding env (os_path_join folder f)); [|exact Hacc].
      simpl. rewrite !length_app, Hacc. reflexivity. }
    destruct (IH acc' Hlen') as [Hlen Hwidth].
    split; [exact Hlen|].
    intros dim Hfixed Hall. apply (Hwidth dim Hfixed).
    subst acc'. unfold gather_step.
    destruct (is_image_name f); [|exact Hall].
    destruct (get_embedding env (os_path_join folder f)) as [emb|] eqn:E;
      [|exact Hall].
    simpl. apply Forall_app. split; [exact Hall|].
    constructor; [|constructor]. apply (Hfixed _ _ E).
Qed.

Lemma gather_lengths (folder : string) (filenames : list string) :
  List.length (fst (gather env folder filenames)) =
  List.length (snd (gather env folder filenames)).
Proof.
  destruct (gather_invariant folder filenames ([], []) eq_refl) as [Hlen _].
  exact Hlen.
Qed.

Lemma gather_widths (folder : string) (filenames : list string) (dim : nat) :
  fixed_width env dim ->
  Forall (fun e => List.length e = dim) (fst (gather env folder filenames)).
Proof.
  intro Hfixed.
  destruct (gather_invariant folder filenames ([], []) eq_refl) as [_ Hwidth].
  apply (Hwidth dim Hfixed). constructor.
Qed.

Lemma np_vstack_uniform (rows : list Embedding) (dim : nat) :
  rows <> [] ->
  Forall (fun e => List.length e = dim) rows ->
  np_vstack rows = Return rows /\ shape1 rows = dim.
Proof.
  intros Hne Hall. destruct rows as [|r rest]; [contradiction Hne; reflexivity|].
  apply Forall_cons_iff in Hall. destruct Hall as [Hr Hrest].
  simpl. split; [|exact Hr].
  assert (forallb (fun r' => (List.length r' =? List.length r)%nat) rest = true) as ->.
  { apply forallb_forall. intros x Hx. rewrite Forall_forall in Hrest.
    rewrite (Hrest x Hx), Hr. apply Nat.eqb_refl. }
  reflexivity.
Qed.

Lemma build_faiss_index_uniform (rows : list Embedding) (dim : nat) :
  shape1 rows = dim ->
  Forall (fun e => List.length e = dim) rows ->
  build_faiss_index rows =
  ([NewIndex dim; IndexAdd (List.length rows)],
   Return {| Faiss.d := dim; Faiss.xb := rows |}).
Proof.
  intros Hshape Hall. unfold build_faiss_index, call, lbind, Faiss.add, Faiss.new.
  rewrite Hshape. simpl.
  assert (forallb (fun row => (List.length row =? dim)%nat) rows = true) as ->.
  { apply forallb_forall. intros x Hx. rewrite Forall_forall in Hall.
    rewrite (Hall x Hx). apply Nat.eqb_refl. }
  reflexivity.
Qed.

(** The search over a folder that yields embeddings, with the index in
    closed form. *)
Lemma reverse_search_nonempty (folder query : string) (top_k : Z)
    (filenames : list string) (embeddings : list Embedding)
    (paths : list string) (dim : nat) :
  os_listdir env folder = Some filenames ->
  gather env folder filenames = (embeddings, paths) ->
  embeddings <> [] ->
  fixed_width env dim ->
  reverse_image_search_clip linalg_norm env folder query top_k =
  let built := [NewIndex dim; IndexAdd (List.length embeddings)] in
  match get_embedding env query with
  | None => (built, Return [])
  | Some query_embedding =>
      let k := Z.min top_k (Z.of_nat (List.length paths)) in
      match Faiss.search {| Faiss.d := dim; Faiss.xb := embeddings |}
                         query_embedding k with
      | Return found =>
          (built ++ [IndexSearch k],
           hits_from linalg_norm paths embeddings query_embedding
                     (fst found) 0 (snd found))
      | Raise e => (built ++ [IndexSearch k], Raise e)
      end
  end.
Proof.
  intros Hlist Hgather Hne Hfixed.
  pose proof (gather_widths folder filenames dim Hfixed) as Hwidths.
  rewrite Hgather in Hwidths. cbn [fst] in Hwidths.
  destruct (np_vstack_uniform embeddings dim Hne Hwidths) as [Hstack Hshape].
  unfold reverse_image_search_clip. rewrite Hlist, Hgather.
  destruct embeddings as [|e0 rest]; [contradiction Hne; reflexivity|].
  unfold lift. rewrite Hstack. unfold lbind at 1.
  rewrite (build_faiss_index_uniform (e0 :: rest) dim Hshape Hwidths).
  unfold lbind at 1.
  destruct (get_embedding env query) as [q|]; [|reflexivity].
  unfold call, lbind.
  destruct (Faiss.search _ q _); reflexivity.
Qed.
End SearchFacts.

Lemma assoc_in_values {V} (key : string) (l : list (string * V)) (v : V) :
  assoc key l = Some v -> In v (map snd l).
Proof.
  unfold assoc. induction l as [|[k x] l IH]; simpl; [discriminate|].
  destruct (String.eqb k key); simpl.
  - intros [= <-]. left. reflexivity.
  - intro H. right. apply IH. exact H.
Qed.

Lemma sample_env_fixed_width : fixed_width sample_env 2.
Proof.
  intros p e He. apply assoc_in_values in He.
  assert (Hall : Forall (fun v : Embedding => List.length v = 2%nat)
                        (map snd sample_images))
    by (repeat constructor).
  rewrite Forall_forall in Hall. apply Hall. exact He.
Qed.

(** C7 (as amended).  When the folder can be listed and yields no valid
    embedding, [reverse_image_search_clip] returns the empty list and makes
    no call to the index library; when the folder can be listed and the
    query image's embedding cannot be produced it returns the empty list as
    well (after the index was built, if the folder yielded embeddings).
    Neither case raises. *)
Theorem reverse_search_empty_results :
  forall linalg_norm env image_folder query_image top_k filenames,
    os_listdir env image_folder = Some filenames ->
    (fst (gather env image_folder filenames) = [] ->
     reverse_image_search_clip linalg_norm env image_folder query_image top_k
     = ([], Return [])) /\
    (forall dim,
       fixed_width env dim ->
       get_embedding env query_image = None ->
       snd (reverse_image_search_clip linalg_norm env image_folder query_image top_k)
       = Return []).
Proof.
  intros norm env folder query top_k filenames Hlist.
  destruct (gather env folder filenames) as [embeddings paths] eqn:Hgather.
  cbn [fst]. split.
  - intros ->. unfold reverse_image_search_clip.
    rewrite Hlist, Hgather. reflexivity.
  - intros dim Hfixed Hquery.
    destruct embeddings as [|e0 rest].
    + unfold reverse_image_search_clip. rewrite Hlist, Hgather. reflexivity.
    + rewrite (reverse_search_nonempty norm env folder query top_k filenames
                 (e0 :: rest) paths dim Hlist Hgather);
        [|discriminate|exact Hfixed].
      cbv zeta. rewrite Hquery. reflexivity.
Qed.

(** A folder without a decodable image, and a query that does not decode. *)
Lemma reverse_search_empty_results_sample :
  reverse_image_search_clip sample_norm sample_env
    "data/empty" "data/original/ref.jpg" 5 = ([], Return []) /\
  snd (reverse_image_search_clip sample_norm sample_env
         "data/downloaded" "data/original/broken.jpg" 5) = Return [].
Proof.
  split.
  - apply (proj1 (reverse_search_empty_results sample_norm sample_env
                    "data/empty" "data/original/ref.jpg" 5
                    ["notes.txt"; "corrupt.png"]%string eq_refl)).
    reflexivity.
  - apply (proj2 (reverse_search_empty_results sample_norm sample_env
                    "data/downloaded" "data/original/broken.jpg" 5
                    ["same.jpg"; "close.PNG"; "edge.jpeg"; "far.jpg";
                     "corrupt.jpg"; "notes.txt"]%string eq_refl) 2%nat).
    + exact sample_env_fixed_width.
    + reflexivity.
Defined.

(** ** The index: what [search] returns *)

Section IndexFacts.
Variable rows : list Embedding.
Variable dim : nat.
Variable query : Embedding.

Let index : Faiss.IndexFlatL2 := {| Faiss.d := dim; Faiss.xb := rows |}.
Let listed : list (nat * Q) :=
  combine (seq 0 (List.length rows)) (map (Faiss.fvec_L2sqr query) rows).

Lemma ranked_perm : Permutation listed (Faiss.ranked index query).
Proof. apply sort_stable_perm. Qed.

Lemma ranked_length : List.length (Faiss.ranked index query) = List.length rows.
Proof.
  rewrite <- (Permutation_length ranked_perm). unfold listed.
  rewrite length_combine, length_seq, length_map. apply Nat.min_id.
Qed.

Lemma ranked_sorted :
  StronglySorted (fun a b => snd a <= snd b) (Faiss.ranked index query).
Proof.
  apply Sorted_StronglySorted.
  - intros a b c Hab Hbc. apply Qle_trans with (snd b); assumption.
  - apply Sorted_weaken with (R := fun a b : nat * Q => Qltb (snd b) (snd a) = false).
    + intros a b H. apply Qltb_ge. exact H.
    + unfold Faiss.ranked.
      apply (sort_stable_sorted (fun y x : nat * Q => Qltb (snd y) (snd x))).
      intros x y H. apply Qltb_lt in H. apply Qltb_ge. lra.
Qed.

Lemma ranked_ids_nodup : NoDup (map fst (Faiss.ranked index query)).
Proof.
  apply Permutation_NoDup with (l := map fst listed).
  - apply Permutation_map. exact ranked_perm.
  - unfold listed.
    rewrite <- (length_map (Faiss.fvec_L2sqr query) rows).
    rewrite map_fst_combine_seq. apply seq_NoDup.
Qed.

Lemma ranked_entry (i : nat) (x : Q) :
  In (i, x) (Faiss.ranked index query) ->
  exists v, nth_error rows i = Some v /\ x = Faiss.fvec_L2sqr query v.
Proof.
  intro H. apply (Permutation_in _ (Permutation_sym ranked_perm)) in H.
  apply in_combine_seq_map in H. destruct H as [_ [v [Hv Hx]]].
  rewrite Nat.sub_0_r in Hv. exists v. split; assumption.
Qed.

Lemma ranked_complete (j : nat) (v : Embedding) :
  nth_error rows j = Some v ->
  In (j, Faiss.fvec_L2sqr query v) (Faiss.ranked index query).
Proof.
  intro H. apply (Permutation_in _ ranked_perm).
  apply (combine_seq_map_in (Faiss.fvec_L2sqr query) rows 0 j v H).
Qed.

(** A positive [k] within the corpus: the first [k] of the ranking, with
    nothing filled in. *)
Lemma search_within (k : Z) :
  List.length query = dim ->
  (0 < k <= Z.of_nat (List.length rows))%Z ->
  let found := firstn (Z.to_nat k) (Faiss.ranked index query) in
  Faiss.search index query k
  = Return (map snd found, map (fun f => Z.of_nat (fst f)) found) /\
  List.length found = Z.to_nat k.
Proof.
  intros Hq Hk found.
  assert (Hlen : List.length found = Z.to_nat k).
  { subst found. rewrite length_firstn, ranked_length. lia. }
  split; [|exact Hlen].
  unfold Faiss.search. fold found. simpl Faiss.d.
  rewrite Hq, Nat.eqb_refl. simpl negb.
  destruct (0 <? k)%Z eqn:Hpos; [|apply Z.ltb_ge in Hpos; lia].
  simpl negb. cbv iota. rewrite Hlen, Nat.sub_diag. simpl repeat.
  rewrite !app_nil_r. reflexivity.
Qed.

(** A [k] that is not positive is refused. *)
Lemma search_nonpositive (k : Z) :
  (k <= 0)%Z -> Faiss.search index query k = Raise AssertionError.
Proof.
  intro Hk. unfold Faiss.search.
  destruct (negb _); [reflexivity|].
  destruct (0 <? k)%Z eqn:Hpos; [apply Z.ltb_lt in Hpos; lia|].
  reflexivity.
Qed.
End IndexFacts.

(** ** The loop over the neighbours *)

Section HitsFacts.
Variable linalg_norm : Embedding -> Q.
Variable paths : list string.
Variable embeddings : list Embedding.
Variable query_embedding : Embedding.
Variable dim : nat.

Hypothesis paths_aligned : List.length paths = List.length embeddings.
Hypothesis rows_width : Forall (fun e => List.length e = dim) embeddings.
Hypothesis query_width : List.length query_embedding = dim.

Lemma hits_from_found (suf : list (nat * Q)) :
  forall pre,
    (forall i x, In (i, x) suf ->
       exists v, nth_error embeddings i = Some v /\
                 x = Faiss.fvec_L2sqr query_embedding v) ->
    exists hits,
      hits_from linalg_norm paths embeddings query_embedding
                (map snd (pre ++ suf)) (List.length pre)
                (map (fun f => Z.of_nat (fst f)) suf) = Return hits /\
      map hit_rank hits = seq (List.length pre + 1) (List.length suf) /\
      map hit_distance hits = map snd suf /\
      Forall2 (hit_of_row linalg_norm paths embeddings query_embedding)
              (map fst suf) hits.
Proof.
  induction suf as [|[i x] suf IH]; intros pre Hrows.
  - exists []. simpl. repeat split. constructor.
  - destruct (Hrows i x (or_introl eq_refl)) as [v [Hv Hx]].
    assert (exists pth, nth_error paths i = Some pth) as [pth Hpth].
    { destruct (nth_error paths i) as [pth|] eqn:E; [exists pth; reflexivity|].
      apply nth_error_None in E.
      assert (i < List.length embeddings)%nat
        by (apply nth_error_Some; congruence).
      lia. }
    assert (List.length query_embedding = List.length v) as Hwidth.
    { rewrite Forall_forall in rows_width.
      rewrite (rows_width v (nth_error_In _ _ Hv)). exact query_width. }
    destruct (cosine_similarity_returns linalg_norm _ _ Hwidth) as [sim Hsim].
    assert (nth_error (map snd (pre ++ (i, x) :: suf)) (List.length pre) = Some x)
      as Hdist.
    { rewrite map_app, nth_error_app2; rewrite length_map; [|lia].
      rewrite Nat.sub_diag. reflexivity. }
    destruct (IH (pre ++ [(i, x)])) as [rest [Hrest [Hranks [Hdists Hall]]]].
    { intros j y Hj. apply Hrows. right. exact Hj. }
    rewrite <- app_assoc in Hrest. simpl app in Hrest.
    rewrite length_app in Hrest, Hranks. simpl List.length in Hrest, Hranks.
    rewrite Nat.add_1_r in Hrest.
    eexists. split; [|split; [|split]].
    + simpl map. simpl hits_from.
      rewrite (py_index_nat paths i pth Hpth). simpl obind.
      rewrite (py_index_nat embeddings i v Hv). simpl obind.
      rewrite Hsim. simpl obind.
      rewrite (py_index_nat _ _ _ Hdist). simpl obind.
      rewrite Hrest. simpl obind. reflexivity.
    + simpl. rewrite Hranks. f_equal. f_equal. lia.
    + simpl. rewrite Hdists. reflexivity.
    + simpl. constructor; [|exact Hall].
      exists v. simpl. repeat split; assumption.
Qed.
End HitsFacts.

(** C7 as first stated fails for a folder that cannot be listed (one that
    does not exist, say): [os.listdir] raises before anything is gathered,
    no empty list is returned, and the exception reaches the caller,
    whether the query image decodes or not. *)
Lemma reverse_search_unlistable_folder_raises :
  os_path_exists sample_env "data/missing" = false /\
  os_listdir sample_env "data/missing" = None /\
  reverse_image_search_clip sample_norm sample_env
    "data/missing" "data/original/ref.jpg" 5 = ([], Raise OSError) /\
  reverse_image_search_clip sample_norm sample_env
    "data/missing" "data/original/broken.jpg" 5 = ([], Raise OSError).
Proof. vm_compute. repeat split. Qed.

(** C8 (as amended).  For a folder that yields [n >= 1] valid embeddings, a
    query image that decodes and a requested [top_k >= 1], the search
    returns exactly [min(top_k, n)] entries.  Their ranks are 1, 2, ... in
    order; their distances ascend; they are built from distinct corpus rows,
    each entry carrying the row's path, the squared Euclidean distance of
    the row to the query and the cosine similarity recomputed from the two
    vectors; and every row left out is at least as far from the query as
    every entry returned. *)
Theorem reverse_search_returns_nearest :
  forall linalg_norm env image_folder query_image top_k filenames dim query_embedding,
    os_listdir env image_folder = Some filenames ->
    fixed_width env dim ->
    fst (gather env image_folder filenames) <> [] ->
    get_embedding env query_image = Some query_embedding ->
    (0 < top_k)%Z ->
    let embeddings := fst (gather env image_folder filenames) in
    let paths := snd (gather env image_folder filenames) in
    let n := List.length embeddings in
    exists hits ids,
      snd (reverse_image_search_clip linalg_norm env image_folder query_image top_k)
        = Return hits /\
      List.length hits = Z.to_nat (Z.min top_k (Z.of_nat n)) /\
      map hit_rank hits = seq 1 (List.length hits) /\
      StronglySorted Qle (map hit_distance hits) /\
      NoDup ids /\
      Forall2 (hit_of_row linalg_norm paths embeddings query_embedding) ids hits /\
      (forall j v,
         nth_error embeddings j = Some v -> ~ In j ids ->
         Forall (fun h => hit_distance h <= Faiss.fvec_L2sqr query_embedding v) hits).
Proof.
  intros norm env folder query top_k filenames dim q
         Hlist Hfixed Hne Hquery Hk embeddings paths n.
  pose proof (gather_lengths env folder filenames) as Hlens.
  pose proof (gather_widths env folder filenames dim Hfixed) as Hwidths.
  fold embeddings in Hlens, Hwidths, Hne. fold paths in Hlens.
  assert (Hgather : gather env folder filenames = (embeddings, paths))
    by (subst embeddings paths; destruct (gather env folder filenames); reflexivity).
  assert (Hn : (0 < n)%nat).
  { subst n. destruct embeddings; [contradiction Hne; reflexivity | simpl; lia]. }
  rewrite (reverse_search_nonempty norm env folder query top_k filenames
             embeddings paths dim Hlist Hgather Hne Hfixed).
  cbv zeta. rewrite Hquery, <- Hlens. fold n.
  set (k := Z.min top_k (Z.of_nat n)).
  assert (Hkn : (0 < k <= Z.of_nat n)%Z) by (subst k; lia).
  destruct (search_within embeddings dim q k (Hfixed _ _ Hquery) Hkn)
    as [Hsearch Hfound].
  set (found := firstn (Z.to_nat k)
                  (Faiss.ranked {| Faiss.d := dim; Faiss.xb := embeddings |} q)) in *.
  rewrite Hsearch. cbn [fst snd].
  assert (Hin : forall i x, In (i, x) found ->
                exists v, nth_error embeddings i = Some v /\
                          x = Faiss.fvec_L2sqr q v).
  { intros i x Hix. apply (ranked_entry embeddings dim q).
    rewrite <- (firstn_skipn (Z.to_nat k) (Faiss.ranked _ q)).
    apply in_or_app. left. exact Hix. }
  destruct (hits_from_found norm paths embeddings q dim
              (eq_sym Hlens) Hwidths (Hfixed _ _ Hquery) found [] Hin)
    as [hits [Hhits [Hranks [Hdists Hrows]]]].
  simpl in Hhits, Hranks.
  assert (Hlen : List.length hits = Z.to_nat k).
  { rewrite <- Hfound, <- (length_map hit_distance hits), Hdists.
    apply length_map. }
  pose proof (ranked_sorted embeddings dim q) as Hsorted.
  exists hits, (map fst found).
  split; [exact Hhits|].
  split; [exact Hlen|].
  split; [rewrite Hranks, Hlen, Hfound; reflexivity|].
  split.
  { rewrite Hdists. apply StronglySorted_map_le.
    apply StronglySorted_firstn. exact Hsorted. }
  split.
  { pose proof (ranked_ids_nodup embeddings dim q) as Hnodup.
    rewrite <- (firstn_skipn (Z.to_nat k) (Faiss.ranked _ q)) in Hnodup.
    rewrite map_app in Hnodup. apply NoDup_app_remove_r in Hnodup.
    exact Hnodup. }
  split; [exact Hrows|].
  intros j v Hv Hout. apply Forall_forall. intros h Hh.
  assert (In (hit_distance h) (map snd found)) as Hd
    by (rewrite <- Hdists; apply in_map; exact Hh).
  apply in_map_iff in Hd. destruct Hd as [[i x] [Hx Hix]]. simpl in Hx. subst x.
  pose proof (ranked_complete embeddings dim q j v Hv) as Hj.
  rewrite <- (firstn_skipn (Z.to_nat k) (Faiss.ranked _ q)) in Hj, Hsorted.
  fold found in Hj, Hsorted.
  apply in_app_or in Hj. destruct Hj as [Hj|Hj].
  - contradiction Hout. apply in_map_iff.
    exists (j, Faiss.fvec_L2sqr q v). split; [reflexivity | exact Hj].
  - apply (StronglySorted_app_le _ _ _ Hsorted (i, hit_distance h)
             (j, Faiss.fvec_L2sqr q v) Hix Hj).
Qed.

(** Three of four candidates, and more than there are. *)
Lemma reverse_search_returns_nearest_sample :
  (exists hits,
     snd (reverse_image_search_clip sample_norm sample_env
            "data/downloaded" "data/original/ref.jpg" 3) = Return hits /\
     List.length hits = 3%nat /\
     map hit_rank hits = [1; 2; 3]%nat /\
     StronglySorted Qle (map hit_distance hits)) /\
  (exists hits,
     snd (reverse_image_search_clip sample_norm sample_env
            "data/downloaded" "data/original/ref.jpg" 9) = Return hits /\
     List.length hits = 4%nat).
Proof.
  assert (Hne : fst (gather sample_env "data/downloaded"
                       ["same.jpg"; "close.PNG"; "edge.jpeg"; "far.jpg";
                        "corrupt.jpg"; "notes.txt"]%string) <> [])
    by (vm_compute; discriminate).
  split.
  - destruct (reverse_search_returns_nearest sample_norm sample_env
                "data/downloaded" "data/original/ref.jpg" 3 _ 2%nat [1; 0]
                eq_refl sample_env_fixed_width Hne eq_refl eq_refl)
      as [hits [ids (Hret & Hlen & Hranks & Hsorted & _)]].
    exists hits. split; [exact Hret|].
    split; [exact Hlen|].
    split; [rewrite Hranks, Hlen; reflexivity | exact Hsorted].
  - destruct (reverse_search_returns_nearest sample_norm sample_env
                "data/downloaded" "data/original/ref.jpg" 9 _ 2%nat [1; 0]
                eq_refl sample_env_fixed_width Hne eq_refl eq_refl)
      as [hits [ids (Hret & Hlen & _)]].
    exists hits. split; [exact Hret | exact Hlen].
Defined.

(** C8 as first stated fails for a [top_k] that is not positive: the index
    library refuses the search, and the function raises instead of
    returning [min(top_k, n)] entries.  It also presupposes a query that
    decodes: without one the result is empty whatever the corpus. *)
Lemma reverse_search_nonpositive_k_raises :
  List.length (fst (gather sample_env "data/downloaded"
                      ["same.jpg"; "close.PNG"; "edge.jpeg"; "far.jpg";
                       "corrupt.jpg"; "notes.txt"]%string)) = 4%nat /\
  snd (reverse_image_search_clip sample_norm sample_env
         "data/downloaded" "data/original/ref.jpg" 0) = Raise AssertionError /\
  snd (reverse_image_search_clip sample_norm sample_env
         "data/downloaded" "data/original/ref.jpg" (-1)) = Raise AssertionError /\
  snd (reverse_image_search_clip sample_norm sample_env
         "data/downloaded" "data/original/broken.jpg" 3) = Return [].
Proof. vm_compute. repeat split. Qed.

(* ================================================================== *)
(** * Further properties of the scorer and the comparator *)

(** The label in terms of the similarity: scoring and labelling composed cut
    the similarities at 0.95, 0.90 and 0.85. *)
Lemma label_of_similarity (s : Q) :
  (95 # 100 < s -> confidence_label (confidence_score s) = EXTREMELY_LIKELY) /\
  (90 # 100 < s /\ s <= 95 # 100 ->
     confidence_label (confidence_score s) = VERY_LIKELY) /\
  (85 # 100 < s /\ s <= 90 # 100 ->
     confidence_label (confidence_score s) = POSSIBLY) /\
  (s <= 85 # 100 -> confidence_label (confidence_score s) = UNLIKELY).
Proof.
  unfold confidence_label, confidence_score, py_max, py_min.
  repeat split; try intros [Hlo Hhi]; try intro H;
    case_Qltb s 1; try case_Qltb 0 s; try case_Qltb 0 1;
    match goal with
    | |- context [Qltb 95 ?x] => case_Qltb 95 x
    end;
    try match goal with
    | |- context [Qltb 90 ?x] => case_Qltb 90 x
    end;
    try match goal with
    | |- context [Qltb 85 ?x] => case_Qltb 85 x
    end;
    try reflexivity; lra.
Qed.

(** What a similarity at most allows as a label. *)
Lemma label_at_most (s : Q) :
  (s <= 85 # 100 -> confidence_label (confidence_score s) = UNLIKELY) /\
  (s <= 90 # 100 ->
     confidence_label (confidence_score s) = POSSIBLY \/
     confidence_label (confidence_score s) = UNLIKELY) /\
  (s <= 95 # 100 ->
     confidence_label (confidence_score s) = VERY_LIKELY \/
     confidence_label (confidence_score s) = POSSIBLY \/
     confidence_label (confidence_score s) = UNLIKELY).
Proof.
  destruct (label_of_similarity s) as (H1 & H2 & H3 & H4).
  split; [exact H4|]. split.
  - intro H. destruct (Qlt_le_dec (85 # 100) s) as [Hlo|Hlo].
    + left. apply H3. split; assumption.
    + right. apply H4, Hlo.
  - intro H. destruct (Qlt_le_dec (90 # 100) s) as [Hmid|Hmid].
    + left. apply H2. split; assumption.
    + destruct (Qlt_le_dec (85 # 100) s) as [Hlo|Hlo].
      * right. left. apply H3. split; assumption.
      * right. right. apply H4, Hlo.
Qed.

(** The label of a record never overstates its similarity: at or below
    0.85 the label is "Unlikely", at or below 0.90 it is at most
    "Possibly", at or below 0.95 at most "Very likely", so "Extremely
    likely" stands only on a similarity above 0.95.  This holds also for a
    record that the threshold counts as a match: under a threshold below
    0.85 a match can be labelled "Unlikely". *)
Theorem match_details_labelled_by_similarity :
  forall linalg_norm env original_image_path search_result_paths similarity_threshold,
    Forall (fun m =>
              (similarity m <= 85 # 100 -> label m = UNLIKELY) /\
              (similarity m <= 90 # 100 -> label m = POSSIBLY \/ label m = UNLIKELY) /\
              (similarity m <= 95 # 100 ->
                 label m = VERY_LIKELY \/ label m = POSSIBLY \/ label m = UNLIKELY) /\
              (label m = EXTREMELY_LIKELY -> 95 # 100 < similarity m) /\
              (label m = EXTREMELY_LIKELY \/ label m = VERY_LIKELY ->
                 90 # 100 < similarity m) /\
              (label m <> UNLIKELY -> 85 # 100 < similarity m) /\
              (similarity_threshold <= similarity m /\ similarity m <= 85 # 100 ->
                 label m = UNLIKELY))
           (match_details
              (compare_images_clip linalg_norm env original_image_path
                                   search_result_paths similarity_threshold)).
Proof.
  intros norm env ref paths thr.
  by_path norm env ref paths thr; simpl; [constructor|].
  apply Forall_forall. intros m Hm. apply in_map_iff in Hm.
  destruct Hm as [[p s] [<- _]]. unfold detail_of. simpl.
  destruct (label_at_most s) as (H85 & H90 & H95).
  split; [exact H85|]. split; [exact H90|]. split; [exact H95|].
  split; [|split; [|split]].
  - intro Hlabel. destruct (Qlt_le_dec (95 # 100) s) as [H|H]; [exact H|].
    exfalso. destruct (H95 H) as [E|[E|E]]; rewrite E in Hlabel; discriminate.
  - intro Hlabel. destruct (Qlt_le_dec (90 # 100) s) as [H|H]; [exact H|].
    exfalso.
    destruct (H90 H) as [E|E]; destruct Hlabel as [L|L]; rewrite E in L; discriminate.
  - intro Hlabel. destruct (Qlt_le_dec (85 # 100) s) as [H|H]; [exact H|].
    exfalso. apply Hlabel, H85, H.
  - intros [_ H]. apply H85, H.
Qed.

Lemma compared_app (linalg_norm : Embedding -> Q) (env : Env) (e : Embedding)
    (l1 l2 : list string) :
  compared linalg_norm env e (l1 ++ l2) =
  compared linalg_norm env e l1 ++ compared linalg_norm env e l2.
Proof. unfold compared. apply flat_map_app. Qed.

Lemma compared_length_le (linalg_norm : Embedding -> Q) (env : Env) (e : Embedding)
    (paths : list string) :
  (List.length (compared linalg_norm env e paths) <= List.length paths)%nat.
Proof.
  induction paths as [|p paths IH]; simpl; [lia|].
  unfold compared in *. simpl. rewrite length_app.
  destruct (candidate_similarity linalg_norm env e p); simpl; lia.
Qed.

Lemma compared_filter_usable (linalg_norm : Embedding -> Q) (env : Env)
    (e : Embedding) (paths : list string) :
  compared linalg_norm env e (filter (usable env) paths) =
  compared linalg_norm env e paths.
Proof.
  induction paths as [|p paths IH]; [reflexivity|].
  simpl filter. destruct (usable env p) eqn:U.
  - unfold compared in *. simpl. rewrite IH. reflexivity.
  - rewrite IH. unfold compared. simpl.
    assert (candidate_similarity linalg_norm env e p = None) as ->; [|reflexivity].
    unfold candidate_similarity. unfold usable in U.
    destruct (os_path_exists env p); [|reflexivity].
    destruct (get_embedding env p); [discriminate | reflexivity].
Qed.

(** Candidates that are missing or do not decode leave no trace: the result
    is the one for the list without them.  Every record is for a listed
    candidate that exists and decodes, and no more candidates are compared
    than were given. *)
Theorem skipped_candidates_leave_no_trace :
  forall linalg_norm env original_image_path search_result_paths similarity_threshold,
    let r := compare_images_clip linalg_norm env original_image_path
                                 search_result_paths similarity_threshold in
    compare_images_clip linalg_norm env original_image_path
                        (filter (usable env) search_result_paths)
                        similarity_threshold = r /\
    (total_compared r <= List.length search_result_paths)%nat /\
    Forall (fun m => In (path m) search_result_paths /\
                     os_path_exists env (path m) = true /\
                     get_embedding env (path m) <> None)
           (match_details r).
Proof.
  intros norm env ref paths thr r. subst r.
  destruct (compare_images_clip_cases env ref) as [Hearly | [e [Hex Hemb]]].
  - rewrite !(compare_images_clip_early norm env ref _ thr Hearly). simpl.
    repeat split; [lia | constructor].
  - rewrite !(compare_images_clip_normal norm env ref e _ thr Hex Hemb).
    rewrite compared_filter_usable. cbv zeta. simpl.
    split; [reflexivity|]. split; [apply compared_length_le|].
    apply Forall_forall. intros m Hm. apply in_map_iff in Hm.
    destruct Hm as [[p s] [<- Hin]]. simpl.
    apply compared_in in Hin. destruct Hin as [Hp Hs].
    split; [exact Hp|].
    unfold candidate_similarity in Hs.
    destruct (os_path_exists env p); [|discriminate].
    destruct (get_embedding env p); [|discriminate].
    split; [reflexivity | discriminate].
Qed.

(** Comparing against two candidate lists in a row is comparing against
    each: counts add up, the lists of similarities and of records are
    joined in order, and the verdict is the disjunction. *)
Theorem comparison_of_joined_lists :
  forall linalg_norm env original_image_path paths1 paths2 similarity_threshold,
    let r1 := compare_images_clip linalg_norm env original_image_path paths1
                                  similarity_threshold in
    let r2 := compare_images_clip linalg_norm env original_image_path paths2
                                  similarity_threshold in
    let r := compare_images_clip linalg_norm env original_image_path
                                 (paths1 ++ paths2) similarity_threshold in
    exact_matches r = (exact_matches r1 + exact_matches r2)%nat /\
    total_compared r = (total_compared r1 + total_compared r2)%nat /\
    similarities r = similarities r1 ++ similarities r2 /\
    match_details r = match_details r1 ++ match_details r2 /\
    is_dropshipping r = is_dropshipping r1 || is_dropshipping r2.
Proof.
  intros norm env ref l1 l2 thr r1 r2 r. subst r1 r2 r.
  destruct (compare_images_clip_cases env ref) as [Hearly | [e [Hex Hemb]]].
  - rewrite !(compare_images_clip_early norm env ref _ thr Hearly).
    repeat split.
  - rewrite !(compare_images_clip_normal norm env ref e _ thr Hex Hemb).
    cbv zeta. simpl. rewrite compared_app, !map_app, length_app.
    unfold count_matches. rewrite filter_app, length_app.
    repeat split.
    set (a := List.length (filter (fun sim => float32_ge sim thr)
                                  (map snd (compared norm env e l1)))).
    set (b := List.length (filter (fun sim => float32_ge sim thr)
                                  (map snd (compared norm env e l2)))).
    destruct a, b; reflexivity.
Qed.

Lemma count_matches_antitone (thr1 thr2 : Q) (sims : list Q) :
  thr1 <= thr2 -> (count_matches thr2 sims <= count_matches thr1 sims)%nat.
Proof.
  intro Hle. unfold count_matches.
  induction sims as [|s sims IH]; simpl; [lia|].
  destruct (float32_ge s thr2) eqn:E.
  - rewrite (float32_ge_antitone s thr1 thr2 Hle E). simpl. lia.
  - destruct (float32_ge s thr1); simpl; lia.
Qed.

(** The threshold only decides what counts as a match: raising it never
    raises the match count and can only withdraw the verdict, while the
    compared count, the similarities, the records and their mean stay as
    they are. *)
Theorem threshold_only_moves_the_match_count :
  forall linalg_norm env original_image_path search_result_paths thr1 thr2,
    thr1 <= thr2 ->
    let r1 := compare_images_clip linalg_norm env original_image_path
                                  search_result_paths thr1 in
    let r2 := compare_images_clip linalg_norm env original_image_path
                                  search_result_paths thr2 in
    (exact_matches r2 <= exact_matches r1)%nat /\
    (is_dropshipping r2 = true -> is_dropshipping r1 = true) /\
    total_compared r2 = total_compared r1 /\
    similarities r2 = similarities r1 /\
    match_details r2 = match_details r1 /\
    avg_similarity r2 = avg_similarity r1.
Proof.
  intros norm env ref paths thr1 thr2 Hle r1 r2. subst r1 r2.
  destruct (compare_images_clip_cases env ref) as [Hearly | [e [Hex Hemb]]].
  - rewrite !(compare_images_clip_early norm env ref paths _ Hearly).
    repeat split; [lia | trivial].
  - rewrite !(compare_images_clip_normal norm env ref e paths _ Hex Hemb).
    cbv zeta. simpl.
    pose proof (count_matches_antitone thr1 thr2
                  (map snd (compared norm env e paths)) Hle) as Hcount.
    repeat split; [exact Hcount|].
    rewrite !Nat.ltb_lt. lia.
Qed.

Lemma threshold_only_moves_the_match_count_sample :
  let paths := ["data/downloaded/same.jpg"; "data/downloaded/close.PNG";
                "data/downloaded/edge.jpeg"; "data/downloaded/far.jpg"]%string in
  let r1 := compare_images_clip sample_norm sample_env "data/original/ref.jpg"
                                paths (6 # 10) in
  let r2 := compare_images_clip sample_norm sample_env "data/original/ref.jpg"
                                paths (85 # 100) in
  exact_matches r1 = 3%nat /\ exact_matches r2 = 1%nat /\
  (exact_matches r2 <= exact_matches r1)%nat /\
  similarities r2 = similarities r1.
Proof.
  intros paths r1 r2.
  destruct (threshold_only_moves_the_match_count sample_norm sample_env
              "data/original/ref.jpg" paths (6 # 10) (85 # 100))
    as (Hcount & _ & _ & Hsims & _); [vm_compute; discriminate|].
  split; [reflexivity|]. split; [reflexivity|]. split; assumption.
Defined.

(** Past the early returns, the verdict is true exactly when some listed
    candidate is compared with a similarity at or above the threshold, the
    comparison being the loop's, in single precision: at or above the
    float32 of the threshold.  A candidate at or above the threshold itself
    always gives the verdict. *)
Theorem verdict_iff_some_candidate_matches :
  forall linalg_norm env original_image_path original_embedding
         search_result_paths similarity_threshold,
    os_path_exists env original_image_path = true ->
    get_embedding env original_image_path = Some original_embedding ->
    let verdict :=
      is_dropshipping
        (compare_images_clip linalg_norm env original_image_path
                             search_result_paths similarity_threshold) in
    (verdict = true <->
     exists p sim,
       In p search_result_paths /\
       candidate_similarity linalg_norm env original_embedding p = Some sim /\
       np_float32 similarity_threshold <= sim) /\
    ((exists p sim,
        In p search_result_paths /\
        candidate_similarity linalg_norm env original_embedding p = Some sim /\
        similarity_threshold <= sim) ->
     verdict = true).
Proof.
  intros norm env ref e paths thr Hex Hemb verdict. subst verdict.
  rewrite (compare_images_clip_normal norm env ref e paths thr Hex Hemb).
  cbv zeta. simpl. rewrite Nat.ltb_lt. unfold count_matches.
  set (passing := filter (fun sim => float32_ge sim thr)
                         (map snd (compared norm env e paths))).
  assert (Hin : forall p s,
             In p paths -> candidate_similarity norm env e p = Some s ->
             float32_ge s thr = true -> (0 < List.length passing)%nat).
  { intros p s Hp Hs Hge.
    assert (In s passing) as Hmem.
    { apply filter_In. split; [|exact Hge].
      apply in_map_iff. exists (p, s). split; [reflexivity|].
      apply compared_in. split; assumption. }
    destruct passing; [contradiction | simpl; lia]. }
  split; [split|].
  - intro Hpos.
    destruct passing as [|s rest] eqn:Hf; [simpl in Hpos; lia|].
    assert (In s passing) as Hmem by (rewrite Hf; left; reflexivity).
    apply filter_In in Hmem. destruct Hmem as [Hmem Hs].
    apply in_map_iff in Hmem. destruct Hmem as [[p s'] [Heq Hmem]].
    simpl in Heq. subst s'. apply compared_in in Hmem. destruct Hmem as [Hp Hsim].
    exists p, s. split; [exact Hp|]. split; [exact Hsim|].
    apply (float32_ge_recorded s thr (candidate_similarity_float32 _ _ _ _ _ Hsim)).
    exact Hs.
  - intros [p [s [Hp [Hs Hle]]]]. apply (Hin p s Hp Hs).
    apply (float32_ge_recorded s thr (candidate_similarity_float32 _ _ _ _ _ Hs)).
    exact Hle.
  - intros [p [s [Hp [Hs Hle]]]]. apply (Hin p s Hp Hs).
    apply float32_ge_of_le, Hle.
Qed.

Lemma verdict_iff_some_candidate_matches_sample :
  is_dropshipping
    (compare_images_clip sample_norm sample_env "data/original/ref.jpg"
       ["data/downloaded/far.jpg"; "data/downloaded/edge.jpeg"]%string (6 # 10))
  = true.
Proof.
  apply (proj1 (verdict_iff_some_candidate_matches sample_norm sample_env
                  "data/original/ref.jpg" [1; 0]
                  ["data/downloaded/far.jpg"; "data/downloaded/edge.jpeg"]%string
                  (6 # 10) eq_refl eq_refl)).
  exists "data/downloaded/edge.jpeg"%string. eexists.
  split; [right; left; reflexivity|].
  split; [vm_compute; reflexivity | vm_compute; discriminate].
Defined.

(* ================================================================== *)
(** * Properties of the cosine similarity *)

Lemma dot_comm (a b : Embedding) : dot a b == dot b a.
Proof.
  unfold dot. revert b. induction a as [|x a IH]; intros [|y b]; simpl;
    try reflexivity.
  rewrite IH. ring.
Qed.

Lemma dot_div (a b : Embedding) (c d : Q) :
  dot (np_div a c) (np_div b d) == dot a b / (c * d).
Proof.
  unfold dot, np_div. revert b. induction a as [|x a IH]; intros [|y b]; simpl;
    try (unfold Qdiv; ring).
  rewrite IH. unfold Qdiv. rewrite Qinv_mult_distr. ring.
Qed.


Lemma Qsquare_nonneg (x : Q) : 0 <= x * x.
Proof.
  destruct (Qlt_le_dec x 0) as [Hneg|Hpos].
  - setoid_replace (x * x) with ((- x) * (- x)) by ring.
    apply Qmult_le_0_compat; lra.
  - apply Qmult_le_0_compat; assumption.
Qed.



Lemma np_dot_same_shape (a b : Embedding) :
  List.length a = List.length b -> np_dot a b = Return (np_float32 (dot a b)).
Proof. intro H. unfold np_dot. rewrite H, Nat.eqb_refl. reflexivity. Qed.

Lemma np_dot_shape_mismatch (a b : Embedding) :
  List.length a <> List.length b -> np_dot a b = Raise ValueError.
Proof.
  intro H. unfold np_dot.
  destruct (Nat.eqb_spec (List.length a) (List.length b)); [contradiction|reflexivity].
Qed.

Lemma cosine_similarity_value (linalg_norm : Embedding -> Q) (a b : Embedding) :
  List.length a = List.length b ->
  exists s, cosine_similarity linalg_norm a b = Return s /\
            s == np_float32 (dot a b / (linalg_norm a * linalg_norm b)).
Proof.
  intro H. unfold cosine_similarity.
  rewrite np_dot_same_shape by (unfold np_div; rewrite !length_map; exact H).
  eexists. split; [reflexivity|]. apply np_float32_proper, dot_div.
Qed.


(** [cosine_similarity] returns a value exactly for vectors of one length
    and raises [ValueError] otherwise; the value does not depend on the
    order of the two vectors. *)
Theorem cosine_similarity_shape_and_symmetry :
  forall linalg_norm a b,
    (List.length a = List.length b ->
     exists s t, cosine_similarity linalg_norm a b = Return s /\
                 cosine_similarity linalg_norm b a = Return t /\ s == t) /\
    (List.length a <> List.length b ->
     cosine_similarity linalg_norm a b = Raise ValueError).
Proof.
  intros norm a b. split.
  - intro H.
    destruct (cosine_similarity_value norm a b H) as [s [Hs Hsv]].
    destruct (cosine_similarity_value norm b a (eq_sym H)) as [t [Ht Htv]].
    exists s, t. split; [exact Hs|]. split; [exact Ht|].
    rewrite Hsv, Htv. apply np_float32_proper.
    rewrite dot_comm, (Qmult_comm (norm a)). reflexivity.
  - intro H. unfold cosine_similarity. apply np_dot_shape_mismatch.
    unfold np_div. rewrite !length_map. exact H.
Qed.





(* ================================================================== *)
(** * Further properties of the batch orchestrator *)

Lemma report_entry_returns (linalg_norm : Embedding -> Q) (env : Env)
    (orig_img : string) (downloaded_paths : list string) (thr : Q) (e : Embedding) :
  os_path_exists env orig_img = true ->
  get_embedding env orig_img = Some e ->
  exists entry,
    report_entry linalg_norm env orig_img downloaded_paths thr = Return entry.
Proof.
  intros Hex Hemb. unfold report_entry.
  rewrite (compare_images_clip_normal linalg_norm env orig_img e _ thr Hex Hemb).
  cbv zeta. cbn [avg_similarity]. eexists. reflexivity.
Qed.

Lemma report_entry_raises (linalg_norm : Embedding -> Q) (env : Env)
    (orig_img : string) (downloaded_paths : list string) (thr : Q) :
  os_path_exists env orig_img = false \/ get_embedding env orig_img = None ->
  report_entry linalg_norm env orig_img downloaded_paths thr = Raise KeyError.
Proof.
  intro Hearly. unfold report_entry.
  rewrite (compare_images_clip_early linalg_norm env orig_img _ thr Hearly).
  reflexivity.
Qed.

Lemma dict_set_keys {V} (dict : list (string * V)) (key : string) (value : V) :
  map fst (dict_set dict key value) =
  if existsb (String.eqb key) (map fst dict)
  then map fst dict else map fst dict ++ [key].
Proof.
  induction dict as [|[k v] dict IH]; simpl; [reflexivity|].
  rewrite (String.eqb_sym key k).
  destruct (String.eqb k key) eqn:E; simpl; [reflexivity|].
  rewrite IH. destruct (existsb (String.eqb key) (map fst dict)); reflexivity.
Qed.

Lemma dict_set_keys_nodup {V} (dict : list (string * V)) (key : string) (value : V) :
  NoDup (map fst dict) -> NoDup (map fst (dict_set dict key value)).
Proof.
  intro Hnd. rewrite dict_set_keys.
  destruct (existsb (String.eqb key) (map fst dict)) eqn:E; [exact Hnd|].
  apply NoDup_app; [exact Hnd | repeat constructor; intros [] |].
  intros k Hk [<-|[]].
  assert (existsb (String.eqb key) (map fst dict) = true) as Hex.
  { apply existsb_exists. exists key. split; [exact Hk | apply String.eqb_refl]. }
  congruence.
Qed.

Lemma dict_set_keys_incl {V} (dict : list (string * V)) (key : string) (value : V) :
  In key (map fst (dict_set dict key value)) /\
  incl (map fst dict) (map fst (dict_set dict key value)) /\
  (List.length (dict_set dict key value) <= S (List.length dict))%nat.
Proof.
  rewrite <- (length_map fst (dict_set dict key value)), dict_set_keys.
  destruct (existsb (String.eqb key) (map fst dict)) eqn:E.
  - apply existsb_exists in E. destruct E as [k [Hk Heq]].
    apply String.eqb_eq in Heq. subst k.
    split; [exact Hk|]. split; [apply incl_refl|]. rewrite length_map. lia.
  - split; [apply in_or_app; right; left; reflexivity|].
    split; [apply incl_appl, incl_refl|].
    rewrite length_app, length_map. simpl. lia.
Qed.

Lemma report_loop_all_decode (linalg_norm : Embedding -> Q) (env : Env)
    (downloaded_paths : list string) (thr : Q) (original_images : list string) :
  Forall (fun o => os_path_exists env o = true /\ get_embedding env o <> None)
         original_images ->
  forall results,
    NoDup (map fst results) ->
    exists report,
      report_loop linalg_norm env original_images downloaded_paths thr results
        = Return report /\
      NoDup (map fst report) /\
      incl (map fst results) (map fst report) /\
      (forall o, In o original_images -> In (path_name o) (map fst report)) /\
      (List.length report <= List.length results + List.length original_images)%nat.
Proof.
  induction 1 as [|o rest [Hex Hemb] Hrest IH]; intros results Hnd; simpl.
  - exists results. repeat split; [exact Hnd | apply incl_refl | contradiction | lia].
  - destruct (get_embedding env o) as [e|] eqn:He; [|contradiction Hemb; reflexivity].
    destruct (report_entry_returns linalg_norm env o downloaded_paths thr e Hex He)
      as [entry Hentry].
    rewrite Hentry. simpl.
    destruct (dict_set_keys_incl results (path_name o) entry) as (Hkey & Hincl & Hlen).
    destruct (IH (dict_set results (path_name o) entry)
                 (dict_set_keys_nodup results (path_name o) entry Hnd))
      as (report & Hrun & Hnd' & Hincl' & Hnames & Hlen').
    exists report. split; [exact Hrun|]. split; [exact Hnd'|].
    split; [intros k Hk; apply Hincl', Hincl, Hk|].
    split; [|lia].
    intros o' [<-|Ho']; [apply Hincl', Hkey | apply Hnames, Ho'].
Qed.

Lemma report_loop_some_fails (linalg_norm : Embedding -> Q) (env : Env)
    (downloaded_paths : list string) (thr : Q) (original_images : list string) :
  Exists (fun o => os_path_exists env o = false \/ get_embedding env o = None)
         original_images ->
  forall results,
    report_loop linalg_norm env original_images downloaded_paths thr results
      = Raise KeyError.
Proof.
  induction original_images as [|o rest IH]; intros Hsome results.
  - inversion Hsome.
  - simpl.
    destruct (os_path_exists env o) eqn:Hex;
      [|rewrite report_entry_raises by (left; exact Hex); reflexivity].
    destruct (get_embedding env o) as [e|] eqn:He;
      [|rewrite report_entry_raises by (right; exact He); reflexivity].
    destruct (report_entry_returns linalg_norm env o downloaded_paths thr e Hex He)
      as [entry Hentry].
    rewrite Hentry. simpl. apply IH.
    inversion Hsome as [? ? [H|H]|]; subst; [congruence | congruence | assumption].
Qed.

(** The batch gives the empty report, and compares nothing, when a folder
    is missing or holds no image file. *)
Theorem batch_empty_report_cases :
  forall linalg_norm env original_folder downloaded_folder similarity_threshold,
    let run := compare_original_with_downloaded linalg_norm env original_folder
                 downloaded_folder similarity_threshold in
    (os_path_exists env original_folder = false \/
     os_path_exists env downloaded_folder = false -> run = Return []) /\
    (forall original_images downloaded_images,
       image_files env original_folder = Return original_images ->
       image_files env downloaded_folder = Return downloaded_images ->
       original_images = [] \/ downloaded_images = [] ->
       run = Return []).
Proof.
  intros norm env ofolder dfolder thr run. subst run.
  unfold compare_original_with_downloaded. split.
  - intros [H|H]; rewrite H; simpl; [reflexivity|].
    destruct (os_path_exists env ofolder); reflexivity.
  - intros originals downloaded Ho Hd Hempty.
    destruct (os_path_exists env ofolder); [|reflexivity].
    destruct (os_path_exists env dfolder); [|reflexivity].
    simpl. rewrite Ho, Hd. simpl.
    destruct Hempty as [-> | ->]; [reflexivity|].
    destruct originals; reflexivity.
Qed.

(** With both folders present and holding image files, the batch is all or
    nothing.  If every reference image decodes, a report is returned with a
    key for the file name of each reference image, no key twice and no more
    entries than reference images.  If one reference image does not decode,
    the batch raises [KeyError] and returns no report, whatever the other
    images are. *)
Theorem batch_all_or_nothing :
  forall linalg_norm env original_folder downloaded_folder similarity_threshold
         original_images downloaded_images,
    os_path_exists env original_folder = true ->
    os_path_exists env downloaded_folder = true ->
    image_files env original_folder = Return original_images ->
    image_files env downloaded_folder = Return downloaded_images ->
    original_images <> [] -> downloaded_images <> [] ->
    let run := compare_original_with_downloaded linalg_norm env original_folder
                 downloaded_folder similarity_threshold in
    (Forall (fun o => os_path_exists env o = true /\ get_embedding env o <> None)
            original_images ->
     exists report,
       run = Return report /\
       NoDup (map fst report) /\
       (forall o, In o original_images -> In (path_name o) (map fst report)) /\
       (List.length report <= List.length original_images)%nat) /\
    (Exists (fun o => os_path_exists env o = false \/ get_embedding env o = None)
            original_images ->
     run = Raise KeyError).
Proof.
  intros norm env ofolder dfolder thr originals downloaded
         Hof Hdf Ho Hd Hne Hnd run. subst run.
  unfold compare_original_with_downloaded. rewrite Hof, Hdf. simpl.
  rewrite Ho, Hd. simpl.
  destruct originals as [|o originals]; [contradiction Hne; reflexivity|].
  destruct downloaded as [|d0 downloaded]; [contradiction Hnd; reflexivity|].
  split.
  - intro Hall.
    destruct (report_loop_all_decode norm env (d0 :: downloaded) thr
                (o :: originals) Hall [] (NoDup_nil _))
      as (report & Hrun & Hnodup & _ & Hnames & Hlen).
    exists report. repeat split; assumption.
  - intro Hsome. apply report_loop_some_fails. exact Hsome.
Qed.

Lemma batch_all_or_nothing_sample :
  (exists report,
     compare_original_with_downloaded sample_norm sample_env
       "data/refs" "data/downloaded" (6 # 10) = Return report /\
     NoDup (map fst report) /\ (List.length report <= 2)%nat) /\
  compare_original_with_downloaded sample_norm sample_env
    "data/original" "data/downloaded" (6 # 10) = Raise KeyError.
Proof.
  split.
  - destruct (batch_all_or_nothing sample_norm sample_env
                "data/refs" "data/downloaded" (6 # 10)
                ["data/refs/ref.jpg"; "data/refs/other.JPG"]%string
                ["data/downloaded/same.jpg"; "data/downloaded/close.PNG";
                 "data/downloaded/edge.jpeg"; "data/downloaded/far.jpg";
                 "data/downloaded/corrupt.jpg"]%string
                eq_refl eq_refl eq_refl eq_refl) as [Hall _];
      [discriminate | discriminate |].
    destruct Hall as (report & Hrun & Hnodup & _ & Hlen).
    { repeat constructor; discriminate. }
    exists report. repeat split; assumption.
  - apply (batch_all_or_nothing sample_norm sample_env
             "data/original" "data/downloaded" (6 # 10)
             ["data/original/ref.jpg"; "data/original/broken.jpg"]%string
             ["data/downloaded/same.jpg"; "data/downloaded/close.PNG";
              "data/downloaded/edge.jpeg"; "data/downloaded/far.jpg";
              "data/downloaded/corrupt.jpg"]%string
             eq_refl eq_refl eq_refl eq_refl); try discriminate.
    right. left. right. reflexivity.
Defined.
(* ================================================================== *)
(** * Properties of the summary *)

Lemma sum_ints_acc (l : list nat) (a : nat) :
  fold_left Nat.add l a = (a + sum_ints l)%nat.
Proof.
  unfold sum_ints. revert a. induction l as [|x l IH]; intro a;
    cbn [fold_left]; [lia|].
  rewrite (IH (a + x)%nat), (IH (0 + x)%nat). lia.
Qed.

Lemma sum_ints_cons (x : nat) (l : list nat) :
  sum_ints (x :: l) = (x + sum_ints l)%nat.
Proof. unfold sum_ints at 1. cbn [fold_left]. apply sum_ints_acc. Qed.

Lemma sum_ints_ones {A} (l : list A) :
  sum_ints (map (fun _ => 1%nat) l) = List.length l.
Proof.
  induction l as [|x l IH]; [reflexivity|].
  simpl map. rewrite sum_ints_cons, IH. reflexivity.
Qed.

Lemma sum_floats_acc (l : list Q) (a : Q) :
  fold_left Qplus l a == a + sum_floats l.
Proof.
  unfold sum_floats. revert a. induction l as [|x l IH]; intro a;
    cbn [fold_left]; [ring|].
  rewrite (IH (a + x)), (IH (0 + x)). ring.
Qed.

Lemma sum_floats_cons (x : Q) (l : list Q) :
  sum_floats (x :: l) == x + sum_floats l.
Proof. unfold sum_floats at 1. cbn [fold_left]. rewrite sum_floats_acc. ring. Qed.

Lemma sum_floats_bounds (lo hi : Q) (l : list Q) :
  Forall (fun x => lo <= x <= hi) l ->
  Qnat (List.length l) * lo <= sum_floats l <= Qnat (List.length l) * hi.
Proof.
  induction 1 as [|x l Hx Hl IH].
  - change (0 * lo <= 0 <= 0 * hi). lra.
  - rewrite sum_floats_cons.
    assert (Qnat (List.length (x :: l)) == 1 + Qnat (List.length l)) as ->.
    { unfold Qnat. simpl List.length. rewrite Nat2Z.inj_succ, <- Z.add_1_l.
      rewrite inject_Z_plus. reflexivity. }
    lra.
Qed.

Lemma matched_le_matches (values : list ReportEntry) :
  (List.length (filter (fun r => (0 <? rep_exact_matches r)%nat) values)
   <= sum_ints (map rep_exact_matches values))%nat /\
  (List.length (filter (fun r => (0 <? rep_exact_matches r)%nat) values) = 0%nat
   <-> sum_ints (map rep_exact_matches values) = 0%nat).
Proof.
  induction values as [|r values [IHle IHzero]]; [split; [simpl; lia | reflexivity]|].
  simpl map. rewrite sum_ints_cons. simpl filter.
  destruct (Nat.ltb_spec 0 (rep_exact_matches r)); simpl; split; lia.
Qed.

(** [print_summary] prints statistics only for a non-empty report, so its
    two divisions by the number of references are never by zero.  The
    references with matches are counted once each: no more than there are
    references, no more than the total of matches, and none exactly when the
    total of matches is zero; their share is a percentage in [0, 100].  The
    overall mean stays within any bounds that hold for every reference's
    mean.  One detail line is printed per reference. *)
Theorem print_summary_statistics :
  forall results : list (string * ReportEntry),
    (results = [] -> print_summary results = None) /\
    (results <> [] ->
     exists s,
       print_summary results = Some s /\
       Summary.total_originals s = List.length results /\
       Summary.total_with_matches s =
         List.length (filter (fun kv => (0 <? rep_exact_matches (snd kv))%nat) results) /\
       (Summary.total_with_matches s <= Summary.total_originals s)%nat /\
       (Summary.total_with_matches s <= Summary.total_matches s)%nat /\
       (Summary.total_with_matches s = 0%nat <-> Summary.total_matches s = 0%nat) /\
       0 <= Summary.percent_with_matches s <= 100 /\
       (forall lo hi,
          Forall (fun kv => lo <= rep_avg_similarity (snd kv) <= hi) results ->
          lo <= Summary.avg_similarity s <= hi) /\
       map (fun l => snd (fst (fst l))) (Summary.lines s) = map fst results).
Proof.
  intro results. split; [intros ->; reflexivity|].
  intro Hne. destruct results as [|kv rest]; [contradiction Hne; reflexivity|].
  set (results := kv :: rest) in *.
  eexists. split; [reflexivity|]. cbn [Summary.total_originals
    Summary.total_with_matches Summary.total_matches Summary.avg_similarity
    Summary.percent_with_matches Summary.lines].
  set (values := map snd results).
  set (matched := filter (fun r => (0 <? rep_exact_matches r)%nat) values).
  assert (Hmatched : sum_ints (map (fun _ => 1%nat) matched) = List.length matched)
    by apply sum_ints_ones.
  assert (Hfilter : List.length matched =
                    List.length (filter (fun kv => (0 <? rep_exact_matches (snd kv))%nat)
                                        results)).
  { subst matched values. symmetry.
    apply (filter_length_map snd (fun r => (0 <? rep_exact_matches r)%nat)). }
  assert (Hle : (List.length matched <= List.length results)%nat).
  { subst matched. etransitivity; [apply filter_length_le|].
    subst values. rewrite length_map. lia. }
  destruct (matched_le_matches values) as [Hmm Hzero]. fold matched in Hmm, Hzero.
  assert (Hlen : (0 < List.length results)%nat) by (subst results; simpl; lia).
  rewrite Hmatched.
  split; [reflexivity|]. split; [exact Hfilter|]. split; [exact Hle|].
  split; [exact Hmm|]. split; [exact Hzero|]. split; [|split].
  - destruct (ratio_in_unit_interval _ _ Hle Hlen) as [H0 H1]. lra.
  - intros lo hi Hall.
    assert (Hlt : (0 <? List.length results)%nat = true) by (apply Nat.ltb_lt; exact Hlen).
    rewrite Hlt.
    assert (Hvals : Forall (fun x => lo <= x <= hi) (map rep_avg_similarity values)).
    { subst values. rewrite map_map. apply Forall_forall. intros x Hx.
      apply in_map_iff in Hx. destruct Hx as [kv' [<- Hin]].
      rewrite Forall_forall in Hall. apply Hall, Hin. }
    pose proof (sum_floats_bounds lo hi _ Hvals) as Hsum.
    subst values. rewrite !length_map in Hsum.
    pose proof (Qnat_pos _ Hlen) as Hpos.
    split.
    + apply Qle_shift_div_l; [exact Hpos|]. lra.
    + apply Qle_shift_div_r; [exact Hpos|]. lra.
  - rewrite map_map. reflexivity.
Qed.

(** The report of two references against the sample downloads: both have
    matches, six in all. *)
Lemma print_summary_statistics_sample :
  exists report s,
    compare_original_with_downloaded sample_norm sample_env
      "data/refs" "data/downloaded" (6 # 10) = Return report /\
    print_summary report = Some s /\
    Summary.total_originals s = 2%nat /\
    Summary.total_with_matches s = 2%nat /\
    Summary.total_matches s = 6%nat /\
    0 <= Summary.percent_with_matches s <= 100.
Proof.
  destruct (compare_original_with_downloaded sample_norm sample_env
              "data/refs" "data/downloaded" (6 # 10)) as [report|x] eqn:Hrun;
    [|vm_compute in Hrun; discriminate].
  assert (Hne : report <> [])
    by (intros ->; vm_compute in Hrun; discriminate).
  destruct (proj2 (print_summary_statistics report) Hne)
    as (s & Hs & _ & _ & _ & _ & _ & Hpct & _).
  exists report, s. split; [reflexivity|]. split; [exact Hs|].
  vm_compute in Hrun. injection Hrun as <-.
  vm_compute in Hs. injection Hs as <-.
  repeat split; try reflexivity; vm_compute; discriminate.
Defined.
(* ================================================================== *)
(** * Further properties of the nearest-neighbour search *)






(** The calls to the index library.  A folder that cannot be listed raises
    before any call.  Otherwise the function makes no call, or builds one
    index over the [n] gathered embeddings, or builds it and searches it
    once, for [min(top_k, n)] neighbours: never two indexes, never two
    searches, never more neighbours than the corpus holds. *)
Theorem reverse_search_index_calls :
  forall linalg_norm env image_folder query_image top_k,
    let run := reverse_image_search_clip linalg_norm env image_folder
                                         query_image top_k in
    match os_listdir env image_folder with
    | None => run = ([], Raise OSError)
    | Some filenames =>
        let embeddings := fst (gather env image_folder filenames) in
        let n := List.length embeddings in
        let built := [NewIndex (shape1 embeddings); IndexAdd n] in
        fst run = [] \/
        fst run = built \/
        fst run = built ++ [IndexSearch (Z.min top_k (Z.of_nat n))]
    end.
Proof.
  intros norm env folder query top_k run. subst run.
  unfold reverse_image_search_clip.
  destruct (os_listdir env folder) as [filenames|]; [|reflexivity].
  pose proof (gather_lengths env folder filenames) as Hlens.
  destruct (gather env folder filenames) as [embeddings paths].
  cbn [fst snd] in *. cbv zeta.
  destruct embeddings as [|e0 rest]; [left; reflexivity|].
  unfold lift. unfold lbind at 1.
  destruct (np_vstack (e0 :: rest)) as [rows|x] eqn:Hstack; [|left; reflexivity].
  assert (rows = e0 :: rest) as ->.
  { unfold np_vstack in Hstack.
    destruct (forallb (fun r' => (List.length r' =? List.length e0)%nat) rest);
      congruence. }
  unfold build_faiss_index, call, lbind.
  destruct (Faiss.add _ _) as [index|x]; [|right; left; reflexivity].
  destruct (get_embedding env query) as [q|]; [|right; left; reflexivity].
  rewrite <- Hlens.
  destruct (Faiss.search index q _); right; right; reflexivity.
Qed.



Lemma L2sqr_nonneg (x y : Embedding) : 0 <= Faiss.fvec_L2sqr x y.
Proof.
  unfold Faiss.fvec_L2sqr. revert y.
  induction x as [|a x IH]; intros [|b y]; simpl; try lra.
  pose proof (IH y). pose proof (Qsquare_nonneg (a - b)). lra.
Qed.

Lemma L2sqr_self (x : Embedding) : Faiss.fvec_L2sqr x x == 0.
Proof.
  unfold Faiss.fvec_L2sqr. induction x as [|a x IH]; simpl; [reflexivity|].
  rewrite IH. ring.
Qed.

Lemma L2sqr_zero (x y : Embedding) :
  List.length x = List.length y ->
  Faiss.fvec_L2sqr x y == 0 -> Forall2 Qeq x y.
Proof.
  revert y. induction x as [|a x IH]; intros [|b y] Hlen Hzero;
    try discriminate; [constructor|].
  injection Hlen as Hlen.
  pose proof (L2sqr_nonneg x y) as Hrest.
  pose proof (Qsquare_nonneg (a - b)) as Hsq.
  unfold Faiss.fvec_L2sqr in *. simpl in Hzero.
  constructor.
  - assert (Hab : (a - b) * (a - b) == 0) by lra.
    apply Qmult_integral in Hab. lra.
  - apply IH; [exact Hlen | lra].
Qed.

(** A query whose embedding is a row of the corpus: the first entry returned
    has rank 1 and distance 0, and is built from a row that equals the query
    component by component. *)
Theorem self_query_first_hit :
  forall linalg_norm env image_folder query_image top_k filenames dim
         query_embedding j,
    os_listdir env image_folder = Some filenames ->
    fixed_width env dim ->
    get_embedding env query_image = Some query_embedding ->
    nth_error (fst (gather env image_folder filenames)) j = Some query_embedding ->
    (0 < top_k)%Z ->
    let embeddings := fst (gather env image_folder filenames) in
    let paths := snd (gather env image_folder filenames) in
    exists h rest i v,
      snd (reverse_image_search_clip linalg_norm env image_folder query_image top_k)
        = Return (h :: rest) /\
      hit_rank h = 1%nat /\
      hit_distance h == 0 /\
      nth_error embeddings i = Some v /\
      nth_error paths i = Some (hit_path h) /\
      Forall2 Qeq query_embedding v.
Proof.
  intros norm env folder query top_k filenames dim q j
         Hlist Hfixed Hquery Hrow Hk embeddings paths.
  fold embeddings in Hrow.
  pose proof (gather_lengths env folder filenames) as Hlens.
  pose proof (gather_widths env folder filenames dim Hfixed) as Hwidths.
  fold embeddings in Hlens, Hwidths. fold paths in Hlens.
  assert (Hgather : gather env folder filenames = (embeddings, paths))
    by (subst embeddings paths; destruct (gather env folder filenames); reflexivity).
  assert (Hne : embeddings <> []) by (intro E; rewrite E in Hrow; destruct j; discriminate).
  assert (Hn : (0 < List.length embeddings)%nat)
    by (destruct embeddings; [contradiction Hne; reflexivity | simpl; lia]).
  rewrite (reverse_search_nonempty norm env folder query top_k filenames
             embeddings paths dim Hlist Hgather Hne Hfixed).
  cbv zeta. rewrite Hquery, <- Hlens.
  set (k := Z.min top_k (Z.of_nat (List.length embeddings))).
  assert (Hkn : (0 < k <= Z.of_nat (List.length embeddings))%Z) by (subst k; lia).
  destruct (search_within embeddings dim q k (Hfixed _ _ Hquery) Hkn)
    as [Hsearch Hfound].
  pose proof (ranked_sorted embeddings dim q) as Hsorted.
  pose proof (ranked_complete embeddings dim q j q Hrow) as Hself.
  pose proof (ranked_entry embeddings dim q) as Hentry.
  set (ranking := Faiss.ranked {| Faiss.d := dim; Faiss.xb := embeddings |} q) in *.
  rewrite Hsearch. cbn [fst snd].
  destruct ranking as [|[i0 x0] tail]; [contradiction|].
  assert (Hfirst : firstn (Z.to_nat k) ((i0, x0) :: tail)
                   = (i0, x0) :: firstn (Z.to_nat k - 1) tail).
  { destruct (Z.to_nat k) as [|k'] eqn:Ek; [lia|].
    simpl. rewrite Nat.sub_0_r. reflexivity. }
  rewrite Hfirst in *.
  set (found := (i0, x0) :: firstn (Z.to_nat k - 1) tail) in *.
  assert (Hin : forall i x, In (i, x) found ->
                exists v, nth_error embeddings i = Some v /\
                          x = Faiss.fvec_L2sqr q v).
  { intros i x Hix. apply Hentry. subst found.
    destruct Hix as [Hix|Hix]; [left; exact Hix|].
    right. rewrite <- (firstn_skipn (Z.to_nat k - 1) tail).
    apply in_or_app. left. exact Hix. }
  destruct (hits_from_found norm paths embeddings q dim
              (eq_sym Hlens) Hwidths (Hfixed _ _ Hquery) found [] Hin)
    as [hits [Hhits [Hranks [Hdists Hrows]]]].
  change ([] ++ found) with found in Hhits.
  change (List.length (@nil (nat * Q))) with 0%nat in Hhits, Hranks.
  rewrite Hhits.
  subst found. simpl in Hranks, Hdists, Hrows.
  destruct hits as [|h rest]; [discriminate|].
  injection Hranks as Hrank _. injection Hdists as Hdist _.
  apply Forall2_cons_iff in Hrows. destruct Hrows as [Hrow0 _].
  destruct Hrow0 as (v & Hv & Hpath & Hd & _).
  assert (Hzero : x0 == 0).
  { apply Qle_antisym.
    - apply StronglySorted_inv in Hsorted. destruct Hsorted as [_ Hall].
      destruct Hself as [Heq|Hin'].
      + injection Heq as _ ->. rewrite L2sqr_self. lra.
      + rewrite Forall_forall in Hall. specialize (Hall _ Hin'). simpl in Hall.
        rewrite L2sqr_self in Hall. exact Hall.
    - rewrite <- Hdist, Hd. apply L2sqr_nonneg. }
  exists h, rest, i0, v. split; [reflexivity|]. split; [exact Hrank|].
  split; [rewrite Hdist; exact Hzero|]. split; [exact Hv|]. split; [exact Hpath|].
  apply L2sqr_zero.
  - rewrite Forall_forall in Hwidths.
    rewrite (Hwidths v (nth_error_In _ _ Hv)). apply (Hfixed _ _ Hquery).
  - rewrite <- Hd, Hdist. exact Hzero.
Qed.

(** A download used as the query: it comes back first, at distance 0. *)
Lemma self_query_first_hit_sample :
  exists h rest,
    snd (reverse_image_search_clip sample_norm sample_env
           "data/downloaded" "data/downloaded/edge.jpeg" 1) = Return (h :: rest) /\
    hit_rank h = 1%nat /\ hit_distance h == 0.
Proof.
  destruct (self_query_first_hit sample_norm sample_env
              "data/downloaded" "data/downloaded/edge.jpeg" 1
              ["same.jpg"; "close.PNG"; "edge.jpeg"; "far.jpg";
               "corrupt.jpg"; "notes.txt"]%string 2%nat [3; 4] 2%nat
              eq_refl sample_env_fixed_width eq_refl eq_refl eq_refl)
    as (h & rest & i & v & Hrun & Hrank & Hdist & _).
  exists h, rest. repeat split; assumption.
Defined.

(* ================================================================== *)
(** * Properties of the process-wide model *)

Section ClipFacts.
Variables Model Preprocess : Type.
Variable cuda_is_available : bool.
Variable clip_load : string -> string -> Outcome (Model * Preprocess).
Variable encode : Model -> Preprocess -> option string -> string -> Outcome Embedding.

Let device : string := if cuda_is_available then "cuda"%string else "cpu"%string.

Lemma load_repeatedly_loaded (n : nat) (g : Clip.Globals Model Preprocess) :
  Clip._clip_model _ _ g <> None ->
  Clip.load_repeatedly _ _ cuda_is_available clip_load n g = (g, []).
Proof.
  intro Hloaded. induction n as [|n IH]; [reflexivity|].
  simpl. unfold Clip.load_clip_model.
  destruct (Clip._clip_model _ _ g) as [[m p]|]; [|contradiction Hloaded; reflexivity].
  rewrite IH. reflexivity.
Qed.

(** The model is loaded once.  When [clip.load] succeeds, any number of
    calls of [load_clip_model] from the unloaded state call it exactly once,
    for "cuda" if available and "cpu" otherwise, and every call returns that
    model with that device.  When it raises, the call raises, nothing is
    kept, and the next call tries again. *)
Theorem load_clip_model_loads_once :
  (forall model preprocess,
     clip_load "ViT-B/32" device = Return (model, preprocess) ->
     let loaded := {| Clip._clip_model := Some (model, preprocess);
                      Clip._clip_device := Some device |} in
     Clip.load_clip_model _ _ cuda_is_available clip_load (Clip.unloaded _ _)
       = (loaded, [device], Return (model, preprocess, Some device)) /\
     Clip.load_clip_model _ _ cuda_is_available clip_load loaded
       = (loaded, [], Return (model, preprocess, Some device)) /\
     forall n,
       Clip.load_repeatedly _ _ cuda_is_available clip_load (S n) (Clip.unloaded _ _)
       = (loaded, [device])) /\
  (forall e,
     clip_load "ViT-B/32" device = Raise e ->
     forall g,
       Clip._clip_model _ _ g = None ->
       exists g',
         Clip.load_clip_model _ _ cuda_is_available clip_load g
           = (g', [device], Raise e) /\
         Clip._clip_model _ _ g' = None).
Proof.
  split.
  - intros m p Hload loaded.
    assert (Hfirst : Clip.load_clip_model _ _ cuda_is_available clip_load
                       (Clip.unloaded _ _)
                     = (loaded, [device], Return (m, p, Some device))).
    { unfold Clip.load_clip_model, Clip.unloaded. simpl. fold device.
      rewrite Hload. reflexivity. }
    split; [exact Hfirst|]. split; [reflexivity|].
    intro n. cbn [Clip.load_repeatedly]. rewrite Hfirst.
    rewrite load_repeatedly_loaded by discriminate. reflexivity.
  - intros e Hload g Hg. unfold Clip.load_clip_model. rewrite Hg. fold device.
    rewrite Hload. eexists. split; reflexivity.
Qed.

(** [get_embedding] with the three arguments given never touches the
    globals and never raises.  With any one of them left out, and the model
    loaded, it answers with the model, preprocessing and device of the
    globals, whatever the other two arguments were, also without raising. *)
Theorem get_embedding_uses_arguments_or_globals :
  forall g image_path,
    (forall m p d,
       exists result,
         Clip.get_embedding _ _ cuda_is_available clip_load encode g image_path
                            (Some m) (Some p) (Some d)
         = (g, [], Return result) /\
         (forall embedding,
            result = Some embedding <->
            encode m p (Some d) image_path = Return embedding)) /\
    (forall model preprocess dev gm gp,
       model = None \/ preprocess = None \/ dev = None ->
       Clip._clip_model _ _ g = Some (gm, gp) ->
       exists result,
         Clip.get_embedding _ _ cuda_is_available clip_load encode g image_path
                            model preprocess dev
         = (g, [], Return result) /\
         (forall embedding,
            result = Some embedding <->
            encode gm gp (Clip._clip_device _ _ g) image_path = Return embedding)).
Proof.
  intros g image_path. split.
  - intros m p d. unfold Clip.get_embedding. eexists. split; [reflexivity|].
    intro embedding. destruct (encode m p (Some d) image_path); split; congruence.
  - intros model preprocess dev gm gp Hnone Hg.
    exists (match encode gm gp (Clip._clip_device _ _ g) image_path with
            | Return embedding => Some embedding
            | Raise _ => None
            end).
    split.
    + unfold Clip.get_embedding, Clip.load_clip_model. rewrite Hg.
      destruct model, preprocess, dev; try reflexivity.
      destruct Hnone as [H|[H|H]]; discriminate.
    + intro embedding.
      destruct (encode gm gp (Clip._clip_device _ _ g) image_path);
        split; congruence.
Qed.

End ClipFacts.

(** A provider that loads: three calls, one load. *)
Lemma load_clip_model_loads_once_sample :
  Clip.load_repeatedly nat nat false (fun _ _ => Return (7%nat, 8%nat)) 3
    (Clip.unloaded nat nat)
  = ({| Clip._clip_model := Some (7%nat, 8%nat); Clip._clip_device := Some "cpu"%string |},
     ["cpu"%string]).
Proof.
  destruct (load_clip_model_loads_once nat nat false (fun _ _ => Return (7%nat, 8%nat)))
    as [Hloads _].
  destruct (Hloads 7%nat 8%nat eq_refl) as (_ & _ & Hrepeat).
  exact (Hrepeat 2%nat).
Defined.

Lemma gather_pairs (env : Env) (folder : string) (filenames : list string) :
  Forall2 (fun v p => get_embedding env p = Some v)
          (fst (gather env folder filenames)) (snd (gather env folder filenames)).
Proof.
  unfold gather.
  assert (Hgen : forall todo acc,
             Forall2 (fun v p => get_embedding env p = Some v) (fst acc) (snd acc) ->
             Forall2 (fun v p => get_embedding env p = Some v)
                     (fst (fold_left (gather_step env folder) todo acc))
                     (snd (fold_left (gather_step env folder) todo acc))).
  { induction todo as [|f todo IH]; intros acc Hacc; [exact Hacc|].
    simpl fold_left. apply IH. unfold gather_step.
    destruct (is_image_name f); [|exact Hacc].
    destruct (get_embedding env (os_path_join folder f)) as [emb|] eqn:Hemb;
      [|exact Hacc].
    simpl. apply Forall2_app; [exact Hacc|].
    constructor; [exact Hemb | constructor]. }
  apply Hgen. constructor.
Qed.

Lemma Forall2_at {A B} (R : A -> B -> Prop) (l : list A) (l' : list B) :
  Forall2 R l l' ->
  forall i a b, nth_error l i = Some a -> nth_error l' i = Some b -> R a b.
Proof.
  induction 1 as [|x y l l' Hxy _ IH]; intros i a b Ha Hb.
  - destruct i; discriminate.
  - destruct i as [|i]; simpl in Ha, Hb.
    + injection Ha as <-. injection Hb as <-. exact Hxy.
    + apply (IH i); assumption.
Qed.

(** The search and the comparator agree.  Under the conditions in which the
    search returns neighbours, each entry's similarity, confidence and label
    are those the pairwise comparator records for the same candidate file
    when the query image is the reference (the candidate existing on disk),
    although the entries are ordered by Euclidean distance. *)
Theorem search_agrees_with_comparator :
  forall linalg_norm env image_folder query_image top_k filenames dim query_embedding,
    os_listdir env image_folder = Some filenames ->
    fixed_width env dim ->
    fst (gather env image_folder filenames) <> [] ->
    get_embedding env query_image = Some query_embedding ->
    (0 < top_k)%Z ->
    exists hits,
      snd (reverse_image_search_clip linalg_norm env image_folder query_image top_k)
        = Return hits /\
      Forall (fun h =>
                os_path_exists env (hit_path h) = true ->
                candidate_similarity linalg_norm env query_embedding (hit_path h)
                  = Some (hit_similarity h) /\
                detail_of (hit_path h, hit_similarity h)
                  = {| path := hit_path h; similarity := hit_similarity h;
                       confidence := hit_confidence h; label := hit_label h |})
             hits.
Proof.
  intros norm env folder query top_k filenames dim q
         Hlist Hfixed Hne Hquery Hk.
  pose proof (gather_lengths env folder filenames) as Hlens.
  pose proof (gather_widths env folder filenames dim Hfixed) as Hwidths.
  pose proof (gather_pairs env folder filenames) as Hpairs.
  destruct (gather env folder filenames) as [embeddings paths] eqn:Hgather.
  cbn [fst snd] in *.
  assert (Hn : (0 < List.length embeddings)%nat)
    by (destruct embeddings; [contradiction Hne; reflexivity | simpl; lia]).
  rewrite (reverse_search_nonempty norm env folder query top_k filenames
             embeddings paths dim Hlist Hgather Hne Hfixed).
  cbv zeta. rewrite Hquery, <- Hlens.
  set (k := Z.min top_k (Z.of_nat (List.length embeddings))).
  assert (Hkn : (0 < k <= Z.of_nat (List.length embeddings))%Z) by (subst k; lia).
  destruct (search_within embeddings dim q k (Hfixed _ _ Hquery) Hkn)
    as [Hsearch _].
  set (found := firstn (Z.to_nat k)
                  (Faiss.ranked {| Faiss.d := dim; Faiss.xb := embeddings |} q)) in *.
  rewrite Hsearch. cbn [fst snd].
  assert (Hin : forall i x, In (i, x) found ->
                exists v, nth_error embeddings i = Some v /\
                          x = Faiss.fvec_L2sqr q v).
  { intros i x Hix. apply (ranked_entry embeddings dim q).
    rewrite <- (firstn_skipn (Z.to_nat k) (Faiss.ranked _ q)).
    apply in_or_app. left. exact Hix. }
  destruct (hits_from_found norm paths embeddings q dim
              (eq_sym Hlens) Hwidths (Hfixed _ _ Hquery) found [] Hin)
    as [hits [Hhits [_ [_ Hrows]]]].
  change ([] ++ found) with found in Hhits.
  change (List.length (@nil (nat * Q))) with 0%nat in Hhits.
  exists hits. split; [exact Hhits|].
  clear Hhits. induction Hrows as [|i h ids hits Hrow _ IH]; constructor; [|exact IH].
  intro Hexists.
  destruct Hrow as (v & Hv & Hpath & _ & Hsim & Hconf & Hlabel).
  pose proof (Forall2_at _ _ _ Hpairs i v (hit_path h) Hv Hpath) as Hemb.
  split.
  - unfold candidate_similarity. rewrite Hexists, Hemb, Hsim. reflexivity.
  - unfold detail_of. simpl. rewrite Hlabel, Hconf. reflexivity.
Qed.

Lemma search_agrees_with_comparator_sample :
  exists hits,
    snd (reverse_image_search_clip sample_norm sample_env
           "data/downloaded" "data/original/ref.jpg" 4) = Return hits /\
    map hit_similarity hits =
    map similarity
      (match_details
         (compare_images_clip sample_norm sample_env "data/original/ref.jpg"
            (map hit_path hits) (6 # 10))).
Proof.
  destruct (search_agrees_with_comparator sample_norm sample_env
              "data/downloaded" "data/original/ref.jpg" 4
              ["same.jpg"; "close.PNG"; "edge.jpeg"; "far.jpg";
               "corrupt.jpg"; "notes.txt"]%string 2%nat [1; 0]
              eq_refl sample_env_fixed_width) as [hits [Hrun _]];
    [vm_compute; discriminate | reflexivity | reflexivity |].
  exists hits. split; [exact Hrun|].
  vm_compute in Hrun. injection Hrun as <-. reflexivity.
Defined.

(* ================================================================== *)
(** * The report and its summary together *)

Lemma print_summary_counts (results : list (string * ReportEntry)) (s : Summary.t) :
  print_summary results = Some s ->
  Summary.total_with_matches s =
    List.length (filter (fun r => (0 <? rep_exact_matches r)%nat) (map snd results)) /\
  Summary.total_matches s = sum_ints (map rep_exact_matches (map snd results)).
Proof.
  destruct results as [|kv rest]; [discriminate|].
  unfold print_summary. intros [= <-].
  cbn [Summary.total_with_matches Summary.total_matches].
  rewrite sum_ints_ones. split; reflexivity.
Qed.

Lemma report_entry_shape (linalg_norm : Embedding -> Q) (env : Env)
    (orig_img : string) (downloaded_paths : list string) (thr : Q)
    (entry : ReportEntry) :
  report_entry linalg_norm env orig_img downloaded_paths thr = Return entry ->
  (List.length (rep_top_matches entry) <= Nat.min 10 (rep_exact_matches entry))%nat /\
  (rep_exact_matches entry <= rep_total_compared entry)%nat /\
  (rep_total_compared entry <= List.length downloaded_paths)%nat.
Proof.
  unfold report_entry.
  set (comparison := compare_images_clip linalg_norm env orig_img downloaded_paths thr).
  pose proof (result_consistent linalg_norm env orig_img downloaded_paths thr)
    as (Hcount & Hlen & _ & Hsims).
  fold comparison in Hcount, Hlen, Hsims.
  assert (Htotal : (total_compared comparison <= List.length downloaded_paths)%nat).
  { subst comparison.
    destruct (compare_images_clip_cases env orig_img) as [Hearly | [e [Hex Hemb]]].
    - rewrite (compare_images_clip_early linalg_norm env orig_img _ thr Hearly).
      simpl. lia.
    - rewrite (compare_images_clip_normal linalg_norm env orig_img e _ thr Hex Hemb).
      cbv zeta. simpl. apply compared_length_le. }
  destruct (avg_similarity comparison) as [avg|]; [|discriminate].
  set (keep := fun m : MatchDetail => Qle_bool thr (similarity m)).
  set (top := firstn 10 (filter keep (sort_by_similarity_desc (match_details comparison)))).
  intros [= <-]. cbn [rep_top_matches rep_exact_matches rep_total_compared].
  split; [|split; [|exact Htotal]].
  - subst top. rewrite length_firstn.
    rewrite <- (Permutation_filter_length keep _ _
                  (sort_by_similarity_desc_perm (match_details comparison))).
    unfold keep. rewrite (filter_length_map similarity (Qle_bool thr)).
    rewrite Hsims, Hcount.
    pose proof (qualifying_le_counted thr (similarities comparison)). lia.
  - rewrite Hcount, <- Hlen. apply count_matches_le.
Qed.

(** In a report the batch returns, a reference that presents a match has
    matches, no more presented than counted, no more matches than compared
    candidates and no more compared candidates than image files in the
    download folder.  Hence the summary counts as "with matches" at least
    the references that present a match.  (It can count more: a match that
    the comparator counts in single precision need not pass the
    orchestrator's filter.) *)
Theorem summary_counts_presented_matches :
  forall linalg_norm env original_folder downloaded_folder similarity_threshold
         report downloaded_images,
    compare_original_with_downloaded linalg_norm env original_folder downloaded_folder
                                     similarity_threshold = Return report ->
    image_files env downloaded_folder = Return downloaded_images ->
    Forall (fun kv =>
              (rep_top_matches (snd kv) <> [] -> (0 < rep_exact_matches (snd kv))%nat) /\
              (List.length (rep_top_matches (snd kv)) <= rep_exact_matches (snd kv))%nat /\
              (rep_exact_matches (snd kv) <= rep_total_compared (snd kv))%nat /\
              (rep_total_compared (snd kv) <= List.length downloaded_images)%nat)
           report /\
    (forall s,
       print_summary report = Some s ->
       (List.length (filter (fun kv => match rep_top_matches (snd kv) with
                                       | [] => false
                                       | _ :: _ => true
                                       end) report)
        <= Summary.total_with_matches s)%nat /\
       (Summary.total_matches s
        <= List.length report * List.length downloaded_images)%nat).
Proof.
  intros norm env ofolder dfolder thr report downloaded Hrun Hd.
  assert (Hentries :
            Forall (fun kv =>
                      exists orig, report_entry norm env orig downloaded thr
                                   = Return (snd kv)) report).
  { apply Forall_forall. intros [name entry] Hin. simpl.
    unfold compare_original_with_downloaded in Hrun.
    destruct (os_path_exists env ofolder); simpl in Hrun;
      [|injection Hrun as <-; contradiction].
    destruct (os_path_exists env dfolder); simpl in Hrun;
      [|injection Hrun as <-; contradiction].
    destruct (image_files env ofolder) as [originals|x]; simpl in Hrun; [|discriminate].
    rewrite Hd in Hrun. simpl in Hrun.
    destruct originals as [|o originals]; [injection Hrun as <-; contradiction|].
    destruct downloaded as [|d0 downloaded]; [injection Hrun as <-; contradiction|].
    destruct (report_loop_entries norm env (d0 :: downloaded) thr (o :: originals)
                [] report Hrun name entry Hin) as [[]|[orig [_ [_ Hentry]]]].
    exists orig. exact Hentry. }
  assert (Hshape :
            Forall (fun kv =>
                      (rep_top_matches (snd kv) <> [] ->
                       (0 < rep_exact_matches (snd kv))%nat) /\
                      (List.length (rep_top_matches (snd kv))
                       <= rep_exact_matches (snd kv))%nat /\
                      (rep_exact_matches (snd kv) <= rep_total_compared (snd kv))%nat /\
                      (rep_total_compared (snd kv) <= List.length downloaded)%nat)
                   report).
  { apply Forall_forall. intros kv Hin. rewrite Forall_forall in Hentries.
    destruct (Hentries kv Hin) as [orig Hentry].
    destruct (report_entry_shape norm env orig downloaded thr _ Hentry)
      as (Htop & Hle & Htotal).
    split; [|split; [lia | split; assumption]].
    destruct (rep_top_matches (snd kv)) as [|m top]; cbn [List.length] in Htop.
    - intro H. contradiction H. reflexivity.
    - intros _. lia. }
  split; [exact Hshape|].
  intros s Hs. destruct (print_summary_counts report s Hs) as [-> ->]. split.
  - rewrite <- (filter_length_map snd (fun r => (0 <? rep_exact_matches r)%nat)).
    clear -Hshape.
    induction Hshape as [|kv report (Hpresented & _) _ IH]; [simpl; lia|].
    cbn [filter].
    destruct (rep_top_matches (snd kv)) as [|m top] eqn:Htop.
    + destruct (0 <? rep_exact_matches (snd kv))%nat; simpl; lia.
    + assert (0 < rep_exact_matches (snd kv))%nat as Hpos
        by (apply Hpresented; discriminate).
      apply Nat.ltb_lt in Hpos. rewrite Hpos. simpl. lia.
  - clear -Hshape.
    induction Hshape as [|kv report (_ & _ & Hle & Htotal) _ IH];
      [unfold sum_ints; simpl; lia|].
    simpl map. rewrite sum_ints_cons. simpl List.length. lia.
Qed.

Lemma summary_counts_presented_matches_sample :
  exists report s,
    compare_original_with_downloaded sample_norm sample_env
      "data/refs" "data/downloaded" (9 # 10) = Return report /\
    print_summary report = Some s /\
    (2 <= Summary.total_with_matches s)%nat /\
    map (fun kv => List.length (rep_top_matches (snd kv))) report = [1; 1]%nat.
Proof.
  destruct (compare_original_with_downloaded sample_norm sample_env
              "data/refs" "data/downloaded" (9 # 10)) as [report|x] eqn:Hrun;
    [|vm_compute in Hrun; discriminate].
  destruct (print_summary report) as [s|] eqn:Hs;
    [|vm_compute in Hrun; injection Hrun as <-; discriminate].
  destruct (summary_counts_presented_matches sample_norm sample_env
              "data/refs" "data/downloaded" (9 # 10) report _ Hrun eq_refl)
    as [_ Hsummary].
  destruct (Hsummary s Hs) as [Hwith _].
  exists report, s. split; [reflexivity|]. split; [exact Hs|].
  vm_compute in Hrun. injection Hrun as <-.
  split; [exact Hwith | reflexivity].
Defined.


(* ================================================================== *)
(** * Which files count as images *)



Lemma str_lower_app (a b : string) :
  str_lower (a ++ b) = (str_lower a ++ str_lower b)%string.
Proof. induction a as [|c a IH]; simpl; congruence. Qed.



Lemma string_app_length (a b : string) :
  String.length (a ++ b) = (String.length a + String.length b)%nat.
Proof. induction a as [|c a IH]; simpl; congruence. Qed.







Lemma string_app_nil_l (a b : string) :
  String.length (a ++ b) = String.length b -> a = EmptyString.
Proof.
  rewrite string_app_length. destruct a; [reflexivity | simpl; lia].
Qed.






(** The divergence on a bare extension, and agreement on ordinary names. *)
Example image_file_tests_on_names :
  is_image_name ".jpg" = true /\ has_image_suffix "data/downloaded/.jpg" = false /\
  is_image_name "Photo.JPEG" = true /\ has_image_suffix "data/original/Photo.JPEG" = true /\
  is_image_name "archive.tar.gz" = false /\ has_image_suffix "data/archive.tar.gz" = false.
Proof. repeat split. Qed.





